(** * ComfyToGPU: the RunPod job orchestration core (src/src/runpod.ts, src/src/server.ts,
    src/src/auth.ts, src/src/gemini-imagen.ts)

    A shallow embedding of the parts of the gateway that submit a ComfyUI
    workflow to RunPod, poll its status, normalise the output and keep the
    in-memory job store of the HTTP server, of its API-key authentication
    and per-key limits, and of the Gemini image call. *)

From Stdlib Require Import ZArith Lia String Ascii List Bool.
From stdpp Require Import base gmap strings pretty.

Import ListNotations.
Local Open Scope string_scope.
Local Open Scope Z_scope.
Set Warnings "-register-all".

(* ------------------------------------------------------------------ *)
(** ** JSON values and JavaScript property access *)

(** A parsed JSON value. Numbers are kept as integers: the claims below only
    look at their identity and truthiness. An object is the list of its
    entries in JavaScript enumeration order ([Object.keys] order). *)
Inductive json :=
| JNull
| JBool (b : bool)
| JNum (n : Z)
| JStr (s : string)
| JArr (l : list json)
| JObj (fs : list (string * json)).

(** Outcome of code that may throw: [Err msg] is a thrown [Error] whose
    [message] is [msg]. *)
Inductive res (A : Type) :=
| Ok (a : A)
| Err (msg : string).
Arguments Ok {A} a.
Arguments Err {A} msg.

Definition rbind {A B} (m : res A) (k : A -> res B) : res B :=
  match m with Ok a => k a | Err e => Err e end.

Notation "'let*' x := m 'in' k" := (rbind m (fun x => k))
  (at level 200, x name, m at level 100, k at level 200).

(** JavaScript truthiness; [None] is [undefined]. *)
Definition truthy (v : json) : bool :=
  match v with
  | JNull => false
  | JBool b => b
  | JNum n => negb (n =? 0)
  | JStr s => negb (String.eqb s "")
  | JArr _ | JObj _ => true
  end.

Definition truthy_opt (v : option json) : bool :=
  match v with Some x => truthy x | None => false end.

Fixpoint assoc (k : string) (fs : list (string * json)) : option json :=
  match fs with
  | [] => None
  | (k', v) :: fs' => if String.eqb k k' then Some v else assoc k fs'
  end.

(** Assignment [o[k] = v] on an object: an existing key keeps its place,
    a new key is appended (insertion order). *)
Fixpoint assoc_set (k : string) (v : json) (fs : list (string * json))
  : list (string * json) :=
  match fs with
  | [] => [(k, v)]
  | (k', v') :: fs' =>
      if String.eqb k k' then (k', v) :: fs' else (k', v') :: assoc_set k v fs'
  end.

(** The canonical array-index key of position [i] (["0"], ["1"], ...). *)
Definition index_key (i : nat) : string := pretty (N.of_nat i).

Fixpoint arr_get (l : list json) (i : nat) (k : string) : option json :=
  match l with
  | [] => None
  | x :: l' => if String.eqb (index_key i) k then Some x else arr_get l' (S i) k
  end.

Fixpoint arr_put (l : list json) (i : nat) (k : string) (v : json) : list json :=
  match l with
  | [] => []
  | x :: l' =>
      if String.eqb (index_key i) k then v :: l' else x :: arr_put l' (S i) k v
  end.

Definition type_error_read (k : string) : string :=
  "Cannot read properties of null (reading '" ++ k ++ "')".

(** Property read [v[k]] (also [v.k]): reading from [null] throws a
    TypeError. Strings, numbers and booleans have none of the properties
    the code reads through them (each read on a string is followed by a
    read of a named property, which is [undefined] on a one-character
    string too), so they yield [undefined]. *)
Definition get_prop (v : json) (k : string) : res (option json) :=
  match v with
  | JNull => Err (type_error_read k)
  | JObj fs => Ok (assoc k fs)
  | JArr l => Ok (arr_get l 0 k)
  | _ => Ok None
  end.

(** Property assignment [v.k = x] in strict mode (TypeScript emits
    ["use strict"] for modules): on [null] or on a primitive it throws.
    The code only assigns named (non-index) properties, which on an array
    are not part of its JSON serialisation. *)
Definition set_prop (v : json) (k : string) (x : json) : res json :=
  match v with
  | JObj fs => Ok (JObj (assoc_set k x fs))
  | JArr l => Ok (JArr l)
  | JNull => Err ("Cannot set properties of null (setting '" ++ k ++ "')")
  | JStr s => Err ("Cannot create property '" ++ k ++ "' on string '" ++ s ++ "'")
  | JNum n => Err ("Cannot create property '" ++ k ++ "' on number '" ++ pretty n ++ "'")
  | JBool b => Err ("Cannot create property '" ++ k ++ "' on boolean '"
                    ++ (if b then "true" else "false") ++ "'")
  end.

(** In-place replacement of a property known to be present (the nested
    object mutated through [workflow[k].inputs.f = ...]). *)
Definition put_prop (v : json) (k : string) (x : json) : json :=
  match v with
  | JObj fs => JObj (assoc_set k x fs)
  | JArr l => JArr (arr_put l 0 k x)
  | _ => v
  end.

Definition is_array (v : option json) : bool :=
  match v with Some (JArr _) => true | _ => false end.

(** The values enumerated by [Object.keys(v).forEach(k => v[k])]. *)
Definition key_values (v : json) : list json :=
  match v with
  | JObj fs => map snd fs
  | JArr l => l
  | _ => []
  end.

(** A fallible [forEach] that pushes onto an accumulator. *)
Fixpoint for_each {A} (f : A -> res (list json)) (l : list A) : res (list json) :=
  match l with
  | [] => Ok []
  | x :: l' =>
      let* a := f x in
      let* b := for_each f l' in
      Ok (a ++ b)%list
  end.

(* ------------------------------------------------------------------ *)
(** ** [RunPodService.processOutput] (runpod.ts 359-436) *)

(** One element of the flat [data.output.images] array (lines 378-385). *)
Definition flat_image (img : json) : res (list json) :=
  match img with
  | JStr s => Ok [JStr s]
  | _ =>
      let* d := get_prop img "data" in
      if truthy_opt d then Ok (option_list d) else Ok []
  end.

(** One element of a per-node [images] array (lines 401-411). *)
Definition node_image (img : json) : res (list json) :=
  match img with
  | JStr s => Ok [JStr s]
  | _ =>
      let* d := get_prop img "data" in
      if truthy_opt d then Ok (option_list d) else
      let* im := get_prop img "image" in
      let* b64 := get_prop img "base64" in
      if truthy_opt im then Ok (option_list im)
      else if truthy_opt b64 then Ok (option_list b64)
      else Ok []
  end.

(** One entry of the per-node output mapping (lines 396-412). *)
Definition node_output (nodeOutput : json) : res (list json) :=
  let* imgs := get_prop nodeOutput "images" in
  if truthy_opt imgs && is_array imgs then
    match imgs with
    | Some (JArr l) => for_each node_image l
    | _ => Ok []
    end
  else Ok [].

(** The image extraction inside the [try] block (lines 370-415). *)
Definition extract_images (data : json) : res (list json) :=
  let* out := get_prop data "output" in
  match out with
  | Some o =>
      if truthy o then
        let* imgs := get_prop o "images" in
        match imgs with
        | Some (JArr l) => for_each flat_image l
        | _ =>
            let* im := get_prop o "image" in
            if truthy_opt im then Ok (option_list im)
            else
              match o with
              | JObj _ | JArr _ => for_each node_output (key_values o)
              | _ => Ok []
              end
        end
      else Ok []
  | None => Ok []
  end.

Record GenerateResult := {
  success : bool;
  jobId : option json;
  message : string;
  images : list json;
  gr_status : option json
}.

Definition processOutput_ok_message : string :=
  "Image generation completed successfully".

(** [processOutput data]; [data] is the RunPod response object, so reading
    [data.id] and [data.status] never throws. *)
Definition processOutput (data : json) : GenerateResult :=
  let field k := match get_prop data k with Ok v => v | Err _ => None end in
  match extract_images data with
  | Ok imgs =>
      {| success := true; jobId := field "id"; message := processOutput_ok_message;
         images := imgs; gr_status := field "status" |}
  | Err e =>
      {| success := false; jobId := field "id";
         message := "Failed to process output: " ++ e; images := []; gr_status := None |}
  end.

(* ------------------------------------------------------------------ *)
(** ** [RunPodService.buildWorkflow] (runpod.ts 274-354) *)

Definition load_error_message : string := "Failed to load ComfyUI workflow file".

(** Lines 278-287: [workflow = workflowData.input?.workflow || workflowData];
    [file] is the parsed content of the workflow file, [None] when it
    cannot be read or parsed. Reading [.input] of [null] throws inside the
    [try], so it is reported as the same load error. *)
Definition load_workflow (file : option json) : res json :=
  match file with
  | None => Err load_error_message
  | Some d =>
      match get_prop d "input" with
      | Err _ => Err load_error_message
      | Ok inp =>
          let cand :=
            match inp with
            | None | Some JNull => None
            | Some i => match get_prop i "workflow" with Ok v => v | Err _ => None end
            end in
          match cand with
          | Some c => if truthy c then Ok c else Ok d
          | None => Ok d
          end
      end
  end.

(** The guarded patch [if (workflow[k] && workflow[k].inputs) { ... }]:
    [f] rewrites the [inputs] object of node [k]. *)
Definition patch_node (k : string) (f : json -> res json) (w : json) : res json :=
  let* n := get_prop w k in
  match n with
  | Some node =>
      if truthy node then
        let* i := get_prop node "inputs" in
        match i with
        | Some inp =>
            if truthy inp then
              let* inp' := f inp in
              Ok (put_prop w k (put_prop node "inputs" inp'))
            else Ok w
        | None => Ok w
        end
      else Ok w
  | None => Ok w
  end.

(** Lines 290-299: [inputs.text = p; inputs.prompt = p]. *)
Definition set_prompt (p : string) (inp : json) : res json :=
  let* i1 := set_prop inp "text" (JStr p) in
  set_prop i1 "prompt" (JStr p).

(** Lines 303-317: a loader node gets its API field from [filename] only
    when [filename] is truthy. *)
Definition from_filename (field : string) (extra : list (string * json))
    (inp : json) : res json :=
  let* fn := get_prop inp "filename" in
  match fn with
  | Some f =>
      if truthy f then
        let* i1 := set_prop inp field f in
        fold_left (fun acc kv => let* i := acc in set_prop i (fst kv) (snd kv)) extra (Ok i1)
      else Ok inp
  | None => Ok inp
  end.

(** Lines 323-330: [if (inputs.value !== undefined) inputs.<field> = inputs.value]. *)
Definition from_value (field : string) (inp : json) : res json :=
  let* v := get_prop inp "value" in
  match v with
  | Some x => set_prop inp field x
  | None => Ok inp
  end.

Definition set_seed (seed : Z) (inp : json) : res json :=
  set_prop inp "seed" (JNum seed).

(** The prompt injection of lines 289-299. *)
Definition inject_prompts (prompt : string) (w : json) : res json :=
  let* w := patch_node "111" (set_prompt prompt) w in
  patch_node "110" (set_prompt "") w.

(** Lines 289-330: every patch before the seed is drawn. *)
Definition pre_seed_patches (prompt : string) (w : json) : res json :=
  let* w := inject_prompts prompt w in
  let* w := patch_node "37" (from_filename "unet_name" [("weight_dtype", JStr "default")]) w in
  let* w := patch_node "38" (from_filename "clip_name" [("type", JStr "qwen_image")]) w in
  let* w := patch_node "39" (from_filename "vae_name" []) w in
  let* w := patch_node "66" (from_value "shift") w in
  patch_node "75" (from_value "strength") w.

(** Lines 289-336 with the drawn seed given. *)
Definition parameterize (seed : Z) (prompt : string) (w : json) : res json :=
  let* w := pre_seed_patches prompt w in
  patch_node "3" (set_seed seed) w.

(** The node identifiers the parameterizer touches. *)
Definition targeted_nodes : list string := ["111"; "110"; "37"; "38"; "39"; "66"; "75"; "3"].

(** *** [Math.floor(Math.random() * 1000000000000000)] (line 333)

    [Math.random()] returns a double [r] in [0, 1), given here as the
    rational [p / q]. The product is rounded to nearest, ties to even, with
    a 53-bit significand ([round_binary64] returns the significand [n] and
    exponent [e] of the result [n * 2^e]; the exponent is clamped at the
    subnormal one, -1074; products here are below 2^50, far from
    overflow), then floored. *)
Definition round_binary64 (P Q : Z) : Z * Z :=
  let S := (P * 2 ^ 1200) / Q in
  let l := Z.log2 S - 1200 in
  let e := Z.max (-1074) (l - 52) in
  let ND := if e <? 0 then (P * 2 ^ (- e), Q) else (P, Q * 2 ^ e) in
  let n := fst ND / snd ND in
  let r := fst ND mod snd ND in
  let n' := if (2 * r >? snd ND) || ((2 * r =? snd ND) && Z.odd n) then n + 1 else n in
  (n', e).

Definition floor_binary64 (ne : Z * Z) : Z :=
  if snd ne <? 0 then fst ne / 2 ^ (- snd ne) else fst ne * 2 ^ snd ne.

Definition seed_scale : Z := 1000000000000000.

Definition random_seed (r : Z * Z) : Z :=
  floor_binary64 (round_binary64 (fst r * seed_scale) (snd r)).

(** [buildWorkflow]: [rng c] is the [c]-th value returned by
    [Math.random()]; the result carries the position of the generator
    after the call (the draw happens only once the earlier patches ran). *)
Definition buildWorkflow (rng : nat -> Z * Z) (c : nat) (prompt : string)
    (file : option json) : res json * nat :=
  match load_workflow file with
  | Err e => (Err e, c)
  | Ok w0 =>
      match pre_seed_patches prompt w0 with
      | Err e => (Err e, c)
      | Ok w1 => (patch_node "3" (set_seed (random_seed (rng c))) w1, S c)
      end
  end.

(* ------------------------------------------------------------------ *)
(** ** The RunPod job and the two poll loops *)

(** [RunPodJob.status] (runpod.ts 14-19). *)
Inductive job_status := IN_QUEUE | IN_PROGRESS | COMPLETED | FAILED | CANCELLED | TIMED_OUT.

Definition status_string (s : job_status) : string :=
  match s with
  | IN_QUEUE => "IN_QUEUE" | IN_PROGRESS => "IN_PROGRESS" | COMPLETED => "COMPLETED"
  | FAILED => "FAILED" | CANCELLED => "CANCELLED" | TIMED_OUT => "TIMED_OUT"
  end.

(** [status.toLowerCase()]. *)
Definition status_lower (s : job_status) : string :=
  match s with
  | IN_QUEUE => "in_queue" | IN_PROGRESS => "in_progress" | COMPLETED => "completed"
  | FAILED => "failed" | CANCELLED => "cancelled" | TIMED_OUT => "timed_out"
  end.

Record RunPodJob := {
  rp_id : string;
  rp_status : job_status;
  rp_output : option json;
  rp_error : option string
}.

(** The response body handed to [processOutput]. *)
Definition job_json (j : RunPodJob) : json :=
  JObj ([("id", JStr (rp_id j)); ("status", JStr (status_string (rp_status j)))]
        ++ match rp_output j with Some o => [("output", o)] | None => [] end
        ++ match rp_error j with Some e => [("error", JStr e)] | None => [] end)%list.

(** [`${job.error || 'Unknown error'}`]. *)
Definition error_text (e : option string) : string :=
  match e with
  | Some s => if String.eqb s "" then "Unknown error" else s
  | None => "Unknown error"
  end.

(** Observable events of a poll loop: the [i]-th status query
    ([getJobStatus]) and the cold-start log line. *)
Inductive poll_event := EvPoll (i : nat) | EvColdStart (i : nat).

Definition timed_out_message : string := "Job timed out waiting for completion".
Definition status_error (m : string) : string := "Failed to get job status: " ++ m.
Definition execution_error (m : string) : string := "RunPod execution failed: " ++ m.

(** Constants of [executeAsync] (lines 169-170, 188) and
    [waitForCompletion] (lines 229-231). *)
Definition asyncMaxWaitTime : Z := 10 * 60 * 1000.
Definition asyncPollInterval : Z := 5000.
Definition coldStartMs : Z := 15000.
Definition waitPollInterval : Z := 2000.
Definition waitDefaultMaxWaitTime : Z := 300000.

Definition is_in_queue (s : job_status) : bool :=
  match s with IN_QUEUE => true | _ => false end.

Section Polling.

(** The remote and the clock: [resp i] is the outcome of the [i]-th status
    query ([Err m] when axios fails with message [m]), [lat i] the
    milliseconds it takes. [setTimeout] sleeps for exactly the poll interval.
    Elapsed time is measured from [startTime]. *)
Variable resp : nat -> res RunPodJob.
Variable lat : nat -> nat.

(** The [while] loop of [executeAsync] (lines 173-195). [fuel] bounds the
    iterations; [async_fuel] is large enough that it never runs out first
    (lemma [async_loop_fuel]). *)
Fixpoint async_loop (fuel i : nat) (elapsed : Z) : list poll_event * res GenerateResult :=
  if elapsed <? asyncMaxWaitTime then
    match fuel with
    | O => ([], Err timed_out_message)
    | S f =>
        match resp i with
        | Err m => ([EvPoll i], Err (status_error m))
        | Ok j =>
            let t := elapsed + Z.of_nat (lat i) in
            match rp_status j with
            | COMPLETED => ([EvPoll i], Ok (processOutput (job_json j)))
            | FAILED => ([EvPoll i], Err ("Job failed: " ++ error_text (rp_error j)))
            | s =>
                let cold := if is_in_queue s && (t >? coldStartMs) then [EvColdStart i] else [] in
                let '(evs, r) := async_loop f (S i) (t + asyncPollInterval) in
                (EvPoll i :: cold ++ evs, r)%list
            end
        end
    end
  else ([], Err timed_out_message).

Definition async_fuel : nat := S (Z.to_nat (asyncMaxWaitTime / asyncPollInterval)).

Definition wrap_execution (r : res GenerateResult) : res GenerateResult :=
  match r with Ok g => Ok g | Err m => Err (execution_error m) end.

(** [executeAsync] (lines 137-204): [built] is the outcome of
    [buildWorkflow] (called outside the [try]), [post] the outcome of the
    [/run] request (the RunPod job id or the axios error message). *)
Definition executeAsync (built : res json) (post : res string)
  : list poll_event * res GenerateResult :=
  match built with
  | Err e => ([], Err e)
  | Ok _ =>
      match post with
      | Err m => ([], Err (execution_error m))
      | Ok _ =>
          let '(evs, r) := async_loop async_fuel 0 0 in (evs, wrap_execution r)
      end
  end.

(** The [while] loop of [waitForCompletion] (lines 233-248). *)
Fixpoint wait_loop (maxWaitTime : Z) (fuel i : nat) (elapsed : Z)
  : list poll_event * res GenerateResult :=
  if elapsed <? maxWaitTime then
    match fuel with
    | O => ([], Err timed_out_message)
    | S f =>
        match resp i with
        | Err m => ([EvPoll i], Err (status_error m))
        | Ok j =>
            let t := elapsed + Z.of_nat (lat i) in
            match rp_status j with
            | COMPLETED => ([EvPoll i], Ok (processOutput (job_json j)))
            | (FAILED | CANCELLED | TIMED_OUT) as s =>
                ([EvPoll i], Err ("Job " ++ status_lower s ++ ": " ++ error_text (rp_error j)))
            | _ =>
                let '(evs, r) := wait_loop maxWaitTime f (S i) (t + waitPollInterval) in
                (EvPoll i :: evs, r)
            end
        end
    end
  else ([], Err timed_out_message).

Definition wait_fuel (maxWaitTime : Z) : nat := S (Z.to_nat (maxWaitTime / waitPollInterval)).

(** [waitForCompletion(jobId, maxWaitTime)]. *)
Definition waitForCompletion (maxWaitTime : Z) : list poll_event * res GenerateResult :=
  wait_loop maxWaitTime (wait_fuel maxWaitTime) 0 0.

End Polling.

Definition job (s : job_status) (e : option string) : RunPodJob :=
  {| rp_id := "rp-1"; rp_status := s; rp_output := None; rp_error := e |}.

Definition responses (l : list job_status) (i : nat) : res RunPodJob :=
  Ok (job (nth i l IN_QUEUE) None).

(* ------------------------------------------------------------------ *)
(** ** The local job store of the HTTP server (server.ts 82-100, 241-330) *)

Inductive local_status := pending | processing | completed | failed.

(** [JobRecord] (server.ts 82-87). *)
Record JobRecord := {
  jr_status : local_status;
  jr_result : option json;
  jr_error : option string;
  startedAt : Z
}.

Definition retentionMs : Z := 60 * 60 * 1000.
Definition sweepIntervalMs : Z := 10 * 60 * 1000.

Definition opt_fields (k : string) (v : option json) : list (string * json) :=
  match v with Some x => [(k, x)] | None => [] end.

(** The message of line 300, a check-mark emoji (in UTF-8) and a text. *)
Definition completed_message : string := "✅ Image generation completed!".

(** The record written when [runpodService.execute] resolves (lines 294-304). *)
Definition completed_record (g : GenerateResult) (t : Z) : JobRecord :=
  {| jr_status := completed;
     jr_result := Some (JObj ([("success", JBool true)]
                          ++ opt_fields "jobId" (jobId g)
                          ++ opt_fields "runpodJobId" (jobId g)
                          ++ [("message", JStr completed_message);
                              ("images", JArr (images g))])%list);
     jr_error := None; startedAt := t |}.

(** The record written when it rejects (lines 315-319). *)
Definition failed_record (msg : string) (t : Z) : JobRecord :=
  {| jr_status := failed; jr_result := None; jr_error := Some msg; startedAt := t |}.

Definition plain_record (st : local_status) (t : Z) : JobRecord :=
  {| jr_status := st; jr_result := None; jr_error := None; startedAt := t |}.

(** One turn of the (single-threaded) event loop that touches the store;
    every [Date.now()] of a turn reads the turn's time [t]. *)
Inductive turn :=
| TGenerate (id prompt : string) (t : Z)
    (** a [POST /api/generate] handler run; [id] is the minted [tempJobId] *)
| TFinish (id : string) (outcome : res GenerateResult) (t : Z)
    (** the background task resuming after [await runpodService.execute] *)
| TSweep (t : Z)
    (** the [setInterval] sweep *)
| TStatus (id : string)
    (** a [GET /api/status/:jobId] handler run (read only) *).

Abbreviation store := (gmap string JobRecord).

(** The synchronous part of the [/api/generate] handler: the [pending]
    record is stored, the id is sent back, and the [async] IIFE runs up to
    its first [await], storing the [processing] record (lines 264-292). *)
Definition generate_sync (id prompt : string) (t : Z) (s : store) : store :=
  if String.eqb prompt "" then s
  else
    let s1 := <[id := plain_record pending t]> s in
    <[id := plain_record processing t]> s1.

Definition finish (id : string) (outcome : res GenerateResult) (t : Z) (s : store) : store :=
  match outcome with
  | Ok g => <[id := completed_record g t]> s
  | Err m => <[id := failed_record m t]> s
  end.

(** Lines 92-100: drop every job with [startedAt < now - 1 hour]. *)
Definition sweep (now : Z) (s : store) : store :=
  filter (fun kv => ~ (startedAt kv.2 < now - retentionMs)) s.

Definition step (tu : turn) (s : store) : store :=
  match tu with
  | TGenerate id p t => generate_sync id p t s
  | TFinish id o t => finish id o t s
  | TSweep t => sweep t s
  | TStatus _ => s
  end.

Definition run (ts : list turn) (s : store) : store := fold_left (fun s tu => step tu s) ts s.

(** What [GET /api/status/:jobId] reports from the store (lines 117-127). *)
Definition status_of (id : string) (s : store) : option local_status :=
  jr_status <$> s !! id.

(* ------------------------------------------------------------------ *)
(** ** The [/api/status/:jobId] handler (server.ts 112-146) *)

Definition local_status_string (st : local_status) : string :=
  match st with
  | pending => "pending" | processing => "processing"
  | completed => "completed" | failed => "failed"
  end.

(** The handler after authentication. A record of the store is answered
    directly; otherwise [runpodService.getJobStatus(jobId)] is asked, whose
    outcome is [remote jobId]. The first component is the id sent to RunPod,
    if any; [res.json] leaves out [undefined] fields. *)
Definition status_handler (s : store) (remote : string -> res RunPodJob) (id : string)
  : option string * (Z * json) :=
  match s !! id with
  | Some jr =>
      (None, (200, JObj ([("success", JBool true); ("jobId", JStr id);
                          ("status", JStr (local_status_string (jr_status jr)))]
                         ++ opt_fields "result" (jr_result jr)
                         ++ opt_fields "error" (JStr <$> jr_error jr))%list))
  | None =>
      (Some id,
        match remote id with
        | Ok j =>
            (200, JObj ([("success", JBool true); ("jobId", JStr (rp_id j));
                         ("status", JStr (status_string (rp_status j)))]
                        ++ opt_fields "output" (rp_output j)
                        ++ opt_fields "error" (JStr <$> rp_error j))%list)
        | Err m =>
            (500, JObj [("error", JStr "Failed to get job status");
                        ("details", JStr (status_error m))])
        end)
  end.

(* ------------------------------------------------------------------ *)
(** ** API keys and per-key limits (auth.ts) *)

(** Characters are UTF-16 code units below 256; among them
    [String.prototype.trim] removes TAB, LF, VT, FF, CR, SPACE and
    NO-BREAK SPACE. *)
Definition is_js_space (a : ascii) : bool :=
  let n := nat_of_ascii a in
  (Nat.leb 9 n && Nat.leb n 13) || Nat.eqb n 32 || Nat.eqb n 160.

(** [s.split(c)] for a one-character separator: ["".split(",")] is [[""]]. *)
Fixpoint js_split (c : ascii) (s : string) : list string :=
  match s with
  | EmptyString => [""]
  | String a s' =>
      if Ascii.eqb a c then "" :: js_split c s'
      else
        match js_split c s' with
        | r :: rs => String a r :: rs
        | [] => [String a ""]
        end
  end.

Fixpoint trim_start (s : string) : string :=
  match s with
  | String a s' => if is_js_space a then trim_start s' else s
  | EmptyString => EmptyString
  end.

Fixpoint trim_end (s : string) : string :=
  match s with
  | EmptyString => EmptyString
  | String a s' =>
      let r := trim_end s' in
      if String.eqb r "" && is_js_space a then "" else String a r
  end.

(** [s.trim()]. *)
Definition js_trim (s : string) : string := trim_end (trim_start s).

(** Adding the elements of [l] in order to the set [acc] ([Set.add]
    ignores an element already present). *)
Fixpoint set_add_all (acc l : list string) : list string :=
  match l with
  | [] => acc
  | x :: l' => set_add_all (if existsb (String.eqb x) acc then acc else (acc ++ [x])%list) l'
  end.

(** [new Set(l)], as its elements in insertion order. *)
Definition new_set (l : list string) : list string := set_add_all [] l.

(** [VALID_API_KEYS] (lines 9-11) from [process.env.API_ACCESS_KEYS]. *)
Definition parse_api_keys (env : option string) : list string :=
  let raw := match env with Some e => e | None => "" end in
  new_set (List.filter (fun k => negb (String.eqb k "")) (map js_trim (js_split ","%char raw))).

(** [VALID_API_KEYS.has(k)]. *)
Definition key_valid (keys : list string) (k : string) : bool := existsb (String.eqb k) keys.

(** An entry of key-limits.json, in the form the code reads and writes it. *)
Record KeyLimit := { kl_name : string; kl_limit : Z; kl_used : Z }.

(** key-limits.json: missing, not valid JSON, or a JSON object of entries
    (its keys distinct, in file order). *)
Inductive key_file :=
| KFMissing
| KFUnparsable
| KFParsed (entries : list (string * KeyLimit)).

(** [loadKeyLimits] (lines 22-32): [{}] when the file is missing or does
    not parse. *)
Definition loadKeyLimits (f : key_file) : list (string * KeyLimit) :=
  match f with KFParsed es => es | _ => [] end.

(** The members every object inherits from [Object.prototype]. *)
Definition object_prototype_members : list string :=
  ["constructor"; "__proto__"; "hasOwnProperty"; "isPrototypeOf";
   "propertyIsEnumerable"; "toString"; "valueOf"; "toLocaleString";
   "__defineGetter__"; "__defineSetter__"; "__lookupGetter__"; "__lookupSetter__"].

(** [limits[apiKey]]: an own entry, an inherited member (a function or
    [Object.prototype]: truthy, without [limit] or [used]), or
    [undefined]. *)
Inductive key_entry := Own (e : KeyLimit) | Inherited | Missing.

Fixpoint lookup_key (k : string) (es : list (string * KeyLimit)) : key_entry :=
  match es with
  | [] => if existsb (String.eqb k) object_prototype_members then Inherited else Missing
  | (k', e) :: es' => if String.eqb k k' then Own e else lookup_key k es'
  end.

(** The result of [checkKeyLimit]; a [remaining] of [None] is [NaN]. *)
Record LimitCheck := { allowed : bool; remaining : option Z; lc_message : option string }.

Definition limit_message (used limit : Z) : string :=
  "API key limit exceeded. Used " ++ pretty used ++ "/" ++ pretty limit ++ " requests.".

(** [checkKeyLimit] (lines 44-69). For an inherited member,
    [keyData.limit - keyData.used] is [NaN] and [undefined >= undefined]
    is false. *)
Definition checkKeyLimit (f : key_file) (k : string) : LimitCheck :=
  match lookup_key k (loadKeyLimits f) with
  | Missing => {| allowed := true; remaining := Some (-1); lc_message := None |}
  | Inherited => {| allowed := true; remaining := None; lc_message := None |}
  | Own e =>
      if kl_limit e =? -1 then {| allowed := true; remaining := Some (-1); lc_message := None |}
      else if kl_limit e <=? kl_used e then
        {| allowed := false; remaining := Some 0;
           lc_message := Some (limit_message (kl_used e) (kl_limit e)) |}
      else {| allowed := true; remaining := Some (kl_limit e - kl_used e); lc_message := None |}
  end.

Fixpoint set_key (k : string) (e : KeyLimit) (es : list (string * KeyLimit))
  : list (string * KeyLimit) :=
  match es with
  | [] => []
  | (k', e') :: es' => if String.eqb k k' then (k', e) :: es' else (k', e') :: set_key k e es'
  end.

(** [incrementKeyUsage] (lines 72-80); [save_ok] tells whether
    [fs.writeFileSync] succeeds (a failed write is logged and ignored). For
    an inherited member the increment lands on the prototype object, which
    [JSON.stringify] does not write, and the loaded entries are saved. *)
Definition incrementKeyUsage (save_ok : bool) (f : key_file) (k : string) : key_file :=
  let limits := loadKeyLimits f in
  let save l := if save_ok then KFParsed l else f in
  match lookup_key k limits with
  | Own e =>
      save (set_key k {| kl_name := kl_name e; kl_limit := kl_limit e;
                         kl_used := kl_used e + 1 |} limits)
  | Inherited => save limits
  | Missing => f
  end.

(** [req.query.key]: a string, or an array or object built by the query
    parser (truthy, not a string). *)
Inductive query_value := QStr (s : string) | QOther.

(** What [authenticateApiKey] reads of a request: [req.path], the
    [x-api-key] header and [req.query.key]. *)
Record request := {
  rq_path : string;
  rq_header : option string;
  rq_query : option query_value
}.

(** [next()] with the key attached to the request, or a response. The
    remaining quota it also attaches is read by no handler. *)
Inductive auth_outcome :=
| ANext (apiKey : option string)
| AReject (code : Z) (body : json).

(** [req.headers['x-api-key'] || req.query.key] (line 88). *)
Definition presented_key (r : request) : option query_value :=
  match rq_header r with
  | Some h => if String.eqb h "" then rq_query r else Some (QStr h)
  | None => rq_query r
  end.

Definition is_status_or_quota (p : string) : bool :=
  String.prefix "/api/status" p || String.eqb p "/api/quota".

Definition auth_required : auth_outcome :=
  AReject 401 (JObj [("error", JStr "Authentication required");
                     ("message", JStr "Please provide x-api-key header")]).

(** [authenticateApiKey] (lines 82-126) with the key list [keys] and the
    current key-limits.json [f]. *)
Definition authenticateApiKey (keys : list string) (f : key_file) (r : request) : auth_outcome :=
  if String.eqb (rq_path r) "/api/health" then ANext None
  else
    match presented_key r with
    | Some (QStr k) =>
        if String.eqb k "" then auth_required
        else if negb (key_valid keys k) then
          AReject 403 (JObj [("error", JStr "Invalid API Key"); ("message", JStr "Access denied")])
        else if is_status_or_quota (rq_path r) then ANext (Some k)
        else
          let lc := checkKeyLimit f k in
          if allowed lc then ANext (Some k)
          else AReject 429 (JObj ([("error", JStr "Rate limit exceeded")]
                                  ++ opt_fields "message" (JStr <$> lc_message lc)
                                  ++ [("remaining", JNum 0)])%list)
    | _ => auth_required
    end.

(** [req.path] inside a middleware mounted with [app.use('/api/', ...)]
    (server.ts 156): the mount point [/api] is cut off. *)
Definition mounted_path (full : string) : string :=
  if String.prefix "/api/" full then substring 4 (String.length full - 4) full else full.

(** Authentication of [GET /api/status/:jobId]: the route-level middleware
    of line 112, which sees the full path. *)
Definition status_auth (keys : list string) (f : key_file) (id : string)
    (hdr : option string) (q : option query_value) : auth_outcome :=
  authenticateApiKey keys f {| rq_path := "/api/status/" ++ id; rq_header := hdr; rq_query := q |}.

(** Authentication of a route behind the mounted middleware of line 156
    ([/api/quota], [/api/generate], ...). *)
Definition mounted_auth (keys : list string) (f : key_file) (full : string)
    (hdr : option string) (q : option query_value) : auth_outcome :=
  authenticateApiKey keys f {| rq_path := mounted_path full; rq_header := hdr; rq_query := q |}.

(** Lines 294-310 of [/api/generate]: once [execute] resolves, the key that
    authenticated the request has its usage incremented; a rejected
    [execute] leaves key-limits.json alone. *)
Definition account (save_ok : bool) (apiKey : string) (outcome : res GenerateResult)
    (f : key_file) : key_file :=
  match outcome with
  | Ok _ => if String.eqb apiKey "" then f else incrementKeyUsage save_ok f apiKey
  | Err _ => f
  end.

(* ------------------------------------------------------------------ *)
(** ** [generateWithGeminiImagen] (gemini-imagen.ts 38-121) *)

Definition gemini_model_name (model : string) : string :=
  if String.eqb model "nana-pro" then "gemini-3-pro-image-preview" else "gemini-2.5-flash-image".

Definition undefined_read (k : string) : string :=
  "Cannot read properties of undefined (reading '" ++ k ++ "')".

(** [v.k] where [v] may be [undefined]. *)
Definition read (v : option json) (k : string) : res (option json) :=
  match v with None => Err (undefined_read k) | Some x => get_prop x k end.

(** [v.length]. *)
Definition js_length (v : json) : option json :=
  match v with
  | JArr l => Some (JNum (Z.of_nat (List.length l)))
  | JStr s => Some (JNum (Z.of_nat (String.length s)))
  | JObj fs => assoc "length" fs
  | _ => None
  end.

(** [v[0]]. *)
Definition js_first (v : json) : option json :=
  match v with
  | JArr (x :: _) => Some x
  | JStr (String a _) => Some (JStr (String a ""))
  | JObj fs => assoc "0" fs
  | _ => None
  end.

(** [parts.find(p => p.inlineData)] over an array. *)
Fixpoint find_inline (l : list json) : res (option json) :=
  match l with
  | [] => Ok None
  | p :: l' =>
      let* d := get_prop p "inlineData" in
      if truthy_opt d then Ok (Some p) else find_inline l'
  end.

Definition parts_find (parts : option json) : res (option json) :=
  match parts with
  | None => Err (undefined_read "find")
  | Some JNull => Err (type_error_read "find")
  | Some (JArr l) => find_inline l
  | Some _ => Err "responseParts.find is not a function"
  end.

(** [String(v)] inside a template literal. Numbers print as decimal
    numerals, as JavaScript prints the integers below 10^21. *)
Fixpoint js_to_string (v : json) : string :=
  match v with
  | JNull => "null"
  | JBool b => if b then "true" else "false"
  | JNum n => pretty n
  | JStr s => s
  | JArr l => String.concat "," (map (fun x => match x with JNull => "" | _ => js_to_string x end) l)
  | JObj _ => "[object Object]"
  end.

Definition js_template (v : option json) : string :=
  match v with Some x => js_to_string x | None => "undefined" end.

Definition no_candidates_message : string := "No candidates returned from Gemini".
Definition text_instead_message : string :=
  "Model returned text instead of image. Check prompt safety or model capability.".

(** Lines 87-106, from [response.data] to the returned data URL. *)
Definition gemini_image (data : json) : res string :=
  let* cands := get_prop data "candidates" in
  if negb (truthy_opt cands) then Err no_candidates_message
  else
    match cands with
    | None => Err no_candidates_message
    | Some c =>
        if match js_length c with Some (JNum 0) => true | _ => false end
        then Err no_candidates_message
        else
          let* content := read (js_first c) "content" in
          let* parts := read content "parts" in
          let* part := parts_find parts in
          match part with
          | None => Err text_instead_message
          | Some p =>
              let* inl := get_prop p "inlineData" in
              let* mime := read inl "mimeType" in
              let* d := read inl "data" in
              Ok ("data:" ++ js_template mime ++ ";base64," ++ js_template d)
          end
    end.

(** [generateWithGeminiImagen(characterName, prompt, refs, model)]:
    [response] is the outcome of the [generateContent] request (its
    [data], or the axios error message); every error is rethrown with the
    model name. *)
Definition generateWithGeminiImagen (model : string) (response : res json) : res string :=
  match (let* data := response in gemini_image data) with
  | Ok s => Ok s
  | Err m => Err ("Failed to generate image with " ++ gemini_model_name model ++ ": " ++ m)
  end.

(* ------------------------------------------------------------------ *)
(** ** Vocabulary of the poll-loop properties *)

(** Milliseconds after [startTime] at which status query [i] is sent: each
    earlier query took [lat k] and was followed by the [interval] sleep. *)
Fixpoint send_time (lat : nat -> nat) (interval : Z) (i : nat) : Z :=
  match i with
  | O => 0
  | S k => send_time lat interval k + Z.of_nat (lat k) + interval
  end.

(** Answers after which [executeAsync]'s loop polls again. *)
Definition async_continues (r : res RunPodJob) : bool :=
  match r with
  | Ok j => match rp_status j with COMPLETED | FAILED => false | _ => true end
  | Err _ => false
  end.

(** What [executeAsync]'s loop returns on an answer that stops it. *)
Definition async_stop (r : res RunPodJob) : res GenerateResult :=
  match r with
  | Ok j =>
      match rp_status j with
      | COMPLETED => Ok (processOutput (job_json j))
      | _ => Err ("Job failed: " ++ error_text (rp_error j))
      end
  | Err m => Err (status_error m)
  end.

(** Answers after which [waitForCompletion]'s loop polls again. *)
Definition wait_continues (r : res RunPodJob) : bool :=
  match r with
  | Ok j => match rp_status j with IN_QUEUE | IN_PROGRESS => true | _ => false end
  | Err _ => false
  end.

Definition wait_stop (r : res RunPodJob) : res GenerateResult :=
  match r with
  | Ok j =>
      match rp_status j with
      | COMPLETED => Ok (processOutput (job_json j))
      | s => Err ("Job " ++ status_lower s ++ ": " ++ error_text (rp_error j))
      end
  | Err m => Err (status_error m)
  end.

(** Job-store records as the handlers write them: a result exactly when
    completed, an error exactly when failed. *)
Definition record_ok (r : JobRecord) : Prop :=
  (jr_result r <> None <-> jr_status r = completed) /\
  (jr_error r <> None <-> jr_status r = failed).

(* ------------------------------------------------------------------ *)
(** ** Vocabulary of the key, accounting and Gemini properties *)

(** Whether the character [c] occurs in [s]. *)
Fixpoint str_has (c : ascii) (s : string) : bool :=
  match s with
  | EmptyString => false
  | String a s' => Ascii.eqb a c || str_has c s'
  end.

(** A key as [VALID_API_KEYS] can hold it: nonempty, unchanged by
    [trim()], without a comma. *)
Definition well_formed_key (k : string) : bool :=
  negb (String.eqb k "") && String.eqb (js_trim k) k && negb (str_has ","%char k).

(** The key-limits.json updates of a sequence of [/api/generate]
    completions under the key [k], in completion order. *)
Definition account_all (save_ok : bool) (k : string) (outs : list (res GenerateResult))
    (f : key_file) : key_file :=
  fold_left (fun f o => account save_ok k o f) outs f.

Definition count_ok (outs : list (res GenerateResult)) : nat :=
  List.length (List.filter (fun o => match o with Ok _ => true | Err _ => false end) outs).

(** The index of the status query an event belongs to. *)
Definition ev_index (e : poll_event) : nat := match e with EvPoll i => i | EvColdStart i => i end.

(** The message [generateWithGeminiImagen] rethrows (line 119). *)
Definition gemini_error (model m : string) : string :=
  "Failed to generate image with " ++ gemini_model_name model ++ ": " ++ m.

(** Sample key-limits.json files and a sample result. *)
Definition limits_full : key_file :=
  KFParsed [("k1", {| kl_name := "team"; kl_limit := 2; kl_used := 2 |})].

Definition limits_two : key_file :=
  KFParsed [("k1", {| kl_name := "team"; kl_limit := 5; kl_used := 1 |});
            ("k2", {| kl_name := "other"; kl_limit := -1; kl_used := 7 |})].

Definition some_result : GenerateResult :=
  {| success := true; jobId := None; message := "ok"; images := []; gr_status := None |}.

(* ------------------------------------------------------------------ *)
(** * Lemmas *)

(** Sample evaluations of the definitions. *)

Example random_seed_max : random_seed (2 ^ 53 - 1, 2 ^ 53) = 999999999999999.
Proof. vm_compute. reflexivity. Qed.

Example random_seed_half : random_seed (1, 2) = 500000000000000.
Proof. vm_compute. reflexivity. Qed.

Example random_seed_tiny : random_seed (1, 2 ^ 1074) = 0.
Proof. vm_compute. reflexivity. Qed.

Example async_queued_then_done :
  fst (async_loop (responses [IN_QUEUE; COMPLETED]) (fun _ => 0%nat) async_fuel 0 0)
  = [EvPoll 0; EvPoll 1].
Proof. reflexivity. Qed.

Example generate_then_status :
  status_of "job_1" (run [TGenerate "job_1" "a red cat" 0] ∅) = Some processing.
Proof. reflexivity. Qed.

Example sweep_old :
  status_of "job_1" (run [TGenerate "job_1" "a red cat" 0; TSweep 3600001] ∅) = None.
Proof. vm_compute. reflexivity. Qed.

Lemma extract_images_output (dfs fs : list (string * json)) :
  assoc "output" dfs = Some (JObj fs) ->
  extract_images (JObj dfs) =
    match assoc "images" fs with
    | Some (JArr l) => for_each flat_image l
    | _ =>
        if truthy_opt (assoc "image" fs) then Ok (option_list (assoc "image" fs))
        else for_each node_output (map snd fs)
    end.
Proof.
  intros H. unfold extract_images. simpl. rewrite H. simpl.
  destruct (assoc "images" fs) as [[]|]; reflexivity.
Qed.

(* ------------------------------------------------------------------ *)
(** ** Property reads and writes *)

Lemma assoc_set_same (k : string) (v : json) (fs : list (string * json)) :
  assoc k (assoc_set k v fs) = Some v.
Proof.
  induction fs as [|[k' v'] fs IH]; simpl.
  - rewrite String.eqb_refl. reflexivity.
  - destruct (String.eqb_spec k k') as [->|Hne]; simpl.
    + rewrite String.eqb_refl. reflexivity.
    + apply String.eqb_neq in Hne. rewrite Hne. exact IH.
Qed.

Lemma assoc_set_other (k k' : string) (v : json) (fs : list (string * json)) :
  k' <> k -> assoc k' (assoc_set k v fs) = assoc k' fs.
Proof.
  intros Hne. induction fs as [|[k0 v0] fs IH]; simpl.
  - apply String.eqb_neq in Hne. rewrite Hne. reflexivity.
  - destruct (String.eqb_spec k k0) as [->|Hk]; simpl.
    + apply String.eqb_neq in Hne. rewrite Hne. reflexivity.
    + destruct (String.eqb k' k0); [reflexivity|exact IH].
Qed.

Lemma assoc_set_keys (k : string) (v : json) (fs : list (string * json)) :
  assoc k fs <> None -> map fst (assoc_set k v fs) = map fst fs.
Proof.
  induction fs as [|[k0 v0] fs IH]; simpl; [congruence|].
  destruct (String.eqb_spec k k0); simpl; [reflexivity|].
  intros H. rewrite IH by exact H. reflexivity.
Qed.

Lemma assoc_set_id (k : string) (v : json) (fs : list (string * json)) :
  assoc k fs = Some v -> assoc_set k v fs = fs.
Proof.
  induction fs as [|[k0 v0] fs IH]; simpl; [discriminate|].
  destruct (String.eqb_spec k k0) as [->|_].
  - intros H. injection H as ->. reflexivity.
  - intros H. rewrite IH by exact H. reflexivity.
Qed.

Lemma arr_get_put_same (l : list json) (i : nat) (k : string) (x v : json) :
  arr_get l i k = Some x -> arr_get (arr_put l i k v) i k = Some v.
Proof.
  revert i. induction l as [|y l IH]; intros i; simpl; [discriminate|].
  destruct (String.eqb (index_key i) k) eqn:E; simpl; rewrite E; auto.
Qed.

Lemma arr_get_put_other (l : list json) (i : nat) (j k : string) (v : json) :
  j <> k -> arr_get (arr_put l i j v) i k = arr_get l i k.
Proof.
  intros Hne. revert i. induction l as [|y l IH]; intros i; simpl; [reflexivity|].
  destruct (String.eqb_spec (index_key i) j) as [E|E]; simpl.
  - assert (String.eqb (index_key i) k = false) as ->
      by (apply String.eqb_neq; congruence).
    reflexivity.
  - destruct (String.eqb (index_key i) k); [reflexivity|apply IH].
Qed.

Lemma arr_put_id (l : list json) (i : nat) (k : string) (x : json) :
  arr_get l i k = Some x -> arr_put l i k x = l.
Proof.
  revert i. induction l as [|y l IH]; intros i; simpl; [discriminate|].
  destruct (String.eqb (index_key i) k).
  - intros H. injection H as ->. reflexivity.
  - intros H. rewrite IH by exact H. reflexivity.
Qed.

Lemma get_put_same (w x v : json) (k : string) :
  get_prop w k = Ok (Some x) -> get_prop (put_prop w k v) k = Ok (Some v).
Proof.
  destruct w; simpl; try discriminate; intros H; injection H as H.
  - erewrite arr_get_put_same by exact H. reflexivity.
  - rewrite assoc_set_same. reflexivity.
Qed.

Lemma get_put_other (w v : json) (j k : string) :
  j <> k -> get_prop (put_prop w j v) k = get_prop w k.
Proof.
  intros Hne. destruct w; simpl; try reflexivity.
  - rewrite arr_get_put_other by exact Hne. reflexivity.
  - rewrite assoc_set_other by congruence. reflexivity.
Qed.

Lemma put_get_id (w x : json) (k : string) :
  get_prop w k = Ok (Some x) -> put_prop w k x = w.
Proof.
  destruct w; simpl; try discriminate; intros H; injection H as H.
  - rewrite arr_put_id by exact H. reflexivity.
  - rewrite assoc_set_id by exact H. reflexivity.
Qed.

Lemma get_some_truthy (w x : json) (k : string) :
  get_prop w k = Ok (Some x) -> truthy w = true.
Proof. destruct w; simpl; try discriminate; reflexivity. Qed.

Lemma truthy_put (w x : json) (k : string) : truthy (put_prop w k x) = truthy w.
Proof. destruct w; reflexivity. Qed.

Lemma rbind_ok {A B} (m : res A) (k : A -> res B) (b : B) :
  rbind m k = Ok b -> exists a, m = Ok a /\ k a = Ok b.
Proof. destruct m as [a|e]; simpl; [eauto|discriminate]. Qed.

(* ------------------------------------------------------------------ *)
(** ** Guarded node patches *)

Lemma patch_absent (k : string) (f : json -> res json) (w : json) :
  get_prop w k = Ok None -> patch_node k f w = Ok w.
Proof. intros H. unfold patch_node. rewrite H. reflexivity. Qed.

(** A patch either leaves the template alone or replaces node [k] by the
    node with new inputs. *)
Lemma patch_cases (k : string) (f : json -> res json) (w w' : json) :
  patch_node k f w = Ok w' ->
  w' = w \/
  exists node inp inp',
    get_prop w k = Ok (Some node) /\ truthy node = true /\
    get_prop node "inputs" = Ok (Some inp) /\ truthy inp = true /\
    f inp = Ok inp' /\ w' = put_prop w k (put_prop node "inputs" inp').
Proof.
  unfold patch_node. intros H. apply rbind_ok in H as [n [Hn H]].
  destruct n as [node|]; [|left; congruence].
  destruct (truthy node) eqn:Tn; [|left; congruence].
  apply rbind_ok in H as [i [Hi H]].
  destruct i as [inp|]; [|left; congruence].
  destruct (truthy inp) eqn:Ti; [|left; congruence].
  apply rbind_ok in H as [inp' [Hf H]].
  right. exists node, inp, inp'. repeat split; congruence.
Qed.

Lemma patch_other (j k : string) (f : json -> res json) (w w' : json) :
  patch_node j f w = Ok w' -> j <> k -> get_prop w' k = get_prop w k.
Proof.
  intros H Hne. destruct (patch_cases _ _ _ _ H) as [->|(node & inp & inp' & _ & _ & _ & _ & _ & ->)].
  - reflexivity.
  - apply get_put_other; exact Hne.
Qed.

Lemma patch_not_null (k : string) (f : json -> res json) (w w' : json) :
  patch_node k f w = Ok w' -> w' <> JNull.
Proof.
  intros H. destruct (patch_cases _ _ _ _ H) as [->|(node & inp & inp' & Hn & _ & _ & _ & _ & ->)].
  - unfold patch_node in H. destruct w; simpl in H; discriminate.
  - destruct w; simpl in Hn |- *; discriminate.
Qed.

(** [obj_frame ks w w']: an object template keeps its keys, in order, and
    every node outside [ks]. *)
Definition obj_frame (ks : list string) (w w' : json) : Prop :=
  forall fs, w = JObj fs ->
    exists fs', w' = JObj fs' /\ map fst fs' = map fst fs /\
      forall k, ~ In k ks -> assoc k fs' = assoc k fs.

Lemma patch_frame (k : string) (f : json -> res json) (w w' : json) :
  patch_node k f w = Ok w' -> obj_frame [k] w w'.
Proof.
  intros H fs ->. destruct (patch_cases _ _ _ _ H) as [->|(node & inp & inp' & Hn & _ & _ & _ & _ & ->)].
  - exists fs. auto.
  - simpl in Hn |- *. injection Hn as Hn.
    eexists. split; [reflexivity|]. split.
    + apply assoc_set_keys. congruence.
    + intros k' Hk'. apply assoc_set_other. intros ->. apply Hk'. left. reflexivity.
Qed.

Lemma obj_frame_trans (ks1 ks2 : list string) (w1 w2 w3 : json) :
  obj_frame ks1 w1 w2 -> obj_frame ks2 w2 w3 -> obj_frame (ks1 ++ ks2) w1 w3.
Proof.
  intros H12 H23 fs ->. destruct (H12 fs eq_refl) as (fs2 & -> & K2 & A2).
  destruct (H23 fs2 eq_refl) as (fs3 & -> & K3 & A3).
  exists fs3. split; [reflexivity|]. split; [congruence|].
  intros k Hk. rewrite A3, A2; [reflexivity| |]; intros Hin; apply Hk, in_or_app; auto.
Qed.

(** [stable_at k f w]: the inputs of node [k], when the guard lets the patch
    through, are already a fixed point of [f]. *)
Definition stable_at (k : string) (f : json -> res json) (w : json) : Prop :=
  forall node inp, get_prop w k = Ok (Some node) -> truthy node = true ->
    get_prop node "inputs" = Ok (Some inp) -> truthy inp = true -> f inp = Ok inp.

Lemma patch_stable_id (k : string) (f : json -> res json) (w : json) :
  w <> JNull -> stable_at k f w -> patch_node k f w = Ok w.
Proof.
  intros Hw Hs. unfold patch_node.
  destruct (get_prop w k) as [[node|]|e] eqn:Hn;
    [|reflexivity|destruct w; simpl in Hn; congruence].
  simpl. destruct (truthy node) eqn:Tn; [|reflexivity].
  destruct (get_prop node "inputs") as [[inp|]|e] eqn:Hi; simpl.
  3:{ destruct node; simpl in Tn, Hi; discriminate. }
  2:{ reflexivity. }
  destruct (truthy inp) eqn:Ti; [|reflexivity].
  rewrite (Hs node inp Hn Tn Hi Ti). simpl.
  rewrite (put_get_id _ _ _ Hi), (put_get_id _ _ _ Hn). reflexivity.
Qed.

Lemma patch_makes_stable (k : string) (f : json -> res json) (w w' : json) :
  (forall i i', f i = Ok i' -> f i' = Ok i' /\ truthy i' = truthy i) ->
  patch_node k f w = Ok w' -> stable_at k f w'.
Proof.
  intros Hf H. pose proof H as H0. unfold patch_node in H0.
  apply rbind_ok in H0 as [n [Hn H0]].
  destruct n as [node|].
  2:{ injection H0 as <-. intros node' inp' Hn'. congruence. }
  destruct (truthy node) eqn:Tn.
  2:{ injection H0 as <-. intros node' inp' Hn' Tn'. congruence. }
  apply rbind_ok in H0 as [i [Hi H0]].
  destruct i as [inp|].
  2:{ injection H0 as <-. intros node' inp' Hn' Tn' Hi'. congruence. }
  destruct (truthy inp) eqn:Ti.
  2:{ injection H0 as <-. intros node' inp' Hn' Tn' Hi' Ti'. congruence. }
  apply rbind_ok in H0 as [inp' [Hfi H0]]. injection H0 as <-.
  intros node2 inp2 Hn2 _ Hi2 _.
  rewrite (get_put_same _ _ _ _ Hn) in Hn2. injection Hn2 as <-.
  rewrite (get_put_same _ _ _ _ Hi) in Hi2. injection Hi2 as <-.
  apply (Hf _ _ Hfi).
Qed.

Lemma set_prompt_stable (p : string) (i i' : json) :
  set_prompt p i = Ok i' -> set_prompt p i' = Ok i' /\ truthy i' = truthy i.
Proof.
  unfold set_prompt. destruct i; simpl; try discriminate.
  - intros H. injection H as <-. auto.
  - intros H. injection H as <-. simpl. split; [|reflexivity].
    rewrite (assoc_set_id "text" (JStr p)).
    + rewrite (assoc_set_id "prompt" (JStr p)); [reflexivity|apply assoc_set_same].
    + rewrite assoc_set_other by discriminate. apply assoc_set_same.
Qed.

(** The value of field [f] of the inputs of node [k]. *)
Definition node_input (w : json) (k f : string) : option json :=
  match get_prop w k with
  | Ok (Some n) =>
      match get_prop n "inputs" with
      | Ok (Some i) => match get_prop i f with Ok v => v | Err _ => None end
      | _ => None
      end
  | _ => None
  end.

(** The guard skips a node that is falsy or has no truthy [inputs]. *)
Lemma patch_skip (k : string) (f : json -> res json) (w node : json) :
  get_prop w k = Ok (Some node) ->
  (truthy node = false \/ exists i, get_prop node "inputs" = Ok i /\ truthy_opt i = false) ->
  patch_node k f w = Ok w.
Proof.
  intros Hn Hg. unfold patch_node. rewrite Hn. cbn [rbind].
  destruct Hg as [Ht|(i & Hi & Ht)]; [rewrite Ht; reflexivity|].
  destruct (truthy node); [|reflexivity].
  rewrite Hi. cbn [rbind]. destruct i as [inp|]; [|reflexivity].
  simpl in Ht. rewrite Ht. reflexivity.
Qed.

Lemma patch_prompt_fields (k p : string) (w w' node : json) (ifs : list (string * json)) :
  get_prop w k = Ok (Some node) -> get_prop node "inputs" = Ok (Some (JObj ifs)) ->
  patch_node k (set_prompt p) w = Ok w' ->
  node_input w' k "text" = Some (JStr p) /\ node_input w' k "prompt" = Some (JStr p).
Proof.
  intros Hn Hi H. unfold patch_node in H. rewrite Hn in H. simpl in H.
  rewrite (get_some_truthy _ _ _ Hi), Hi in H. simpl in H. injection H as <-.
  unfold node_input.
  rewrite (get_put_same _ _ _ _ Hn), (get_put_same _ _ _ _ Hi). simpl.
  rewrite assoc_set_other by discriminate. rewrite !assoc_set_same. auto.
Qed.

Lemma obj_frame_mono (ks ks' : list string) (w w' : json) :
  obj_frame ks w w' -> (forall k, In k ks -> In k ks') -> obj_frame ks' w w'.
Proof.
  intros H Hin fs Hw. destruct (H fs Hw) as (fs' & E & K & A).
  exists fs'. split; [exact E|]. split; [exact K|].
  intros k Hk. apply A. intros Hk'. apply Hk, Hin, Hk'.
Qed.

(* ------------------------------------------------------------------ *)
(** * Claims *)

(** C10: [processOutput] reports [success = true] with the fixed message
    and the extracted images exactly when extraction does not throw (also
    when there is no [output] field, with no images); when extraction
    throws it reports [success = false], no images, and a message carrying
    the exception's message. *)
Theorem processOutput_success_iff_no_throw (data : json) :
  (forall imgs, extract_images data = Ok imgs ->
     success (processOutput data) = true /\
     message (processOutput data) = processOutput_ok_message /\
     images (processOutput data) = imgs) /\
  (forall e, extract_images data = Err e ->
     success (processOutput data) = false /\
     images (processOutput data) = [] /\
     message (processOutput data) = "Failed to process output: " ++ e) /\
  (success (processOutput data) = true <-> exists imgs, extract_images data = Ok imgs) /\
  (forall dfs, data = JObj dfs -> assoc "output" dfs = None ->
     success (processOutput data) = true /\ images (processOutput data) = []).
Proof.
  unfold processOutput.
  split; [|split; [|split]].
  - intros imgs H. rewrite H. auto.
  - intros e H. rewrite H. auto.
  - destruct (extract_images data) as [imgs|e]; simpl; split.
    + intros _. eauto.
    + reflexivity.
    + discriminate.
    + intros [imgs H]; discriminate.
  - intros dfs -> H. unfold extract_images. simpl. rewrite H. simpl. auto.
Qed.

Definition sample_response : json :=
  JObj [("id", JStr "rp-1"); ("status", JStr "COMPLETED");
        ("output", JObj [("images", JArr [JStr "aGVsbG8="])])].

Lemma processOutput_success_iff_no_throw_witness :
  extract_images sample_response = Ok [JStr "aGVsbG8="] /\
  images (processOutput sample_response) = [JStr "aGVsbG8="].
Proof.
  split; [reflexivity|].
  apply (proj1 (processOutput_success_iff_no_throw sample_response) _ eq_refl).
Defined.

(** A response carrying both a flat [images] array and a single [image]
    field. *)
Definition both_shapes_response : json :=
  JObj [("id", JStr "rp-1");
        ("output", JObj [("images", JArr [JStr "a"]); ("image", JStr "b")])].

(** An image object carrying only an [image] (or only a [base64]) field,
    given as the flat array or under the node [k]. *)
Definition flat_response (img : json) : json :=
  JObj [("output", JObj [("images", JArr [img])])].

Definition node_response (k : string) (img : json) : json :=
  JObj [("output", JObj [(k, JObj [("images", JArr [img])])])].

(** C2 (code bug): the normaliser does not search all three shapes. Once
    [output.images] is an array, only that array is read: the single [image]
    field and the per-node entries are never looked at, so images found in
    several shapes are not concatenated. And the flat-array branch accepts
    only strings and objects with a truthy [data] (runpod.ts 378-385), while
    the per-node branch also accepts [{image}] and [{base64}] objects
    (lines 408-410): the same image object yields no image as the flat array
    and one image under a node. *)
Theorem processOutput_first_shape_only :
  (forall dfs fs l, assoc "output" dfs = Some (JObj fs) -> assoc "images" fs = Some (JArr l) ->
     extract_images (JObj dfs) = for_each flat_image l) /\
  images (processOutput both_shapes_response) = [JStr "a"] /\
  (forall x k, x <> "" -> k <> "image" ->
     images (processOutput (flat_response (JObj [("image", JStr x)]))) = [] /\
     images (processOutput (node_response k (JObj [("image", JStr x)]))) = [JStr x] /\
     images (processOutput (flat_response (JObj [("base64", JStr x)]))) = [] /\
     images (processOutput (node_response k (JObj [("base64", JStr x)]))) = [JStr x]).
Proof.
  split; [|split; [reflexivity|]].
  - intros dfs fs l Ho Hi. rewrite (extract_images_output _ _ Ho), Hi. reflexivity.
  - intros x k Hx Hk.
    assert (Tx : truthy (JStr x) = true)
      by (destruct x; [contradiction|reflexivity]).
    assert (E2 : String.eqb "image" k = false) by (apply String.eqb_neq; congruence).
    unfold processOutput, flat_response, node_response.
    rewrite (extract_images_output [("output", JObj [("images", JArr [JObj [("image", JStr x)]])])] _ eq_refl).
    rewrite (extract_images_output [("output", JObj [(k, JObj [("images", JArr [JObj [("image", JStr x)]])])])] _ eq_refl).
    rewrite (extract_images_output [("output", JObj [("images", JArr [JObj [("base64", JStr x)]])])] _ eq_refl).
    rewrite (extract_images_output [("output", JObj [(k, JObj [("images", JArr [JObj [("base64", JStr x)]])])])] _ eq_refl).
    cbn -[String.eqb truthy].
    destruct (String.eqb "images" k); cbn -[String.eqb truthy]; rewrite E2; cbn -[String.eqb truthy];
      rewrite ?Tx; cbn -[truthy]; rewrite ?Tx; repeat split.
Qed.

Lemma processOutput_first_shape_only_witness :
  images (processOutput (flat_response (JObj [("image", JStr "b64")]))) = [] /\
  images (processOutput (node_response "9" (JObj [("image", JStr "b64")]))) = [JStr "b64"].
Proof.
  destruct (proj2 (proj2 processOutput_first_shape_only) "b64" "9"
              ltac:(discriminate) ltac:(discriminate)) as [A [B _]].
  split; [exact A|exact B].
Defined.

(** C6: parameterization keeps every node of an object template that it
    does not target (same keys in the same order, same value), and the patch
    of a node identifier absent from the template is a no-op that raises no
    error; a template with none of the targeted nodes is returned as is. *)
Theorem parameterize_frame :
  (forall seed prompt fs w', parameterize seed prompt (JObj fs) = Ok w' ->
     exists fs', w' = JObj fs' /\ map fst fs' = map fst fs /\
       forall k, ~ In k targeted_nodes -> assoc k fs' = assoc k fs) /\
  (forall k f fs, assoc k fs = None -> patch_node k f (JObj fs) = Ok (JObj fs)) /\
  (forall seed prompt fs, (forall k, In k targeted_nodes -> assoc k fs = None) ->
     parameterize seed prompt (JObj fs) = Ok (JObj fs)).
Proof.
  split; [|split].
  - intros seed prompt fs w' H.
    unfold parameterize, pre_seed_patches, inject_prompts in H.
    apply rbind_ok in H as (w7 & H7 & H8).
    apply rbind_ok in H7 as (w2 & H2 & H7).
    apply rbind_ok in H2 as (w1 & H1 & H2).
    apply rbind_ok in H7 as (w3 & H3 & H7).
    apply rbind_ok in H7 as (w4 & H4 & H7).
    apply rbind_ok in H7 as (w5 & H5 & H7).
    apply rbind_ok in H7 as (w6 & H6 & H7).
    assert (F : obj_frame targeted_nodes (JObj fs) w').
    { eapply obj_frame_mono.
      - eapply obj_frame_trans; [apply (patch_frame _ _ _ _ H1)|].
        eapply obj_frame_trans; [apply (patch_frame _ _ _ _ H2)|].
        eapply obj_frame_trans; [apply (patch_frame _ _ _ _ H3)|].
        eapply obj_frame_trans; [apply (patch_frame _ _ _ _ H4)|].
        eapply obj_frame_trans; [apply (patch_frame _ _ _ _ H5)|].
        eapply obj_frame_trans; [apply (patch_frame _ _ _ _ H6)|].
        eapply obj_frame_trans; [apply (patch_frame _ _ _ _ H7)|].
        apply (patch_frame _ _ _ _ H8).
      - simpl. tauto. }
    exact (F fs eq_refl).
  - intros k f fs H. apply patch_absent. simpl. rewrite H. reflexivity.
  - intros seed prompt fs H.
    assert (P : forall k f, In k targeted_nodes -> patch_node k f (JObj fs) = Ok (JObj fs)).
    { intros k f Hk. apply patch_absent. simpl. rewrite (H k Hk). reflexivity. }
    unfold parameterize, pre_seed_patches, inject_prompts.
    repeat (rewrite P by (simpl; tauto); cbn [rbind]). reflexivity.
Qed.

Definition sample_fields : list (string * json) :=
  [("3", JObj [("class_type", JStr "KSampler"); ("inputs", JObj [("seed", JNum 1)])]);
        ("110", JObj [("inputs", JObj [("text", JStr "ugly")])]);
        ("111", JObj [("inputs", JObj [])]);
        ("440", JObj [("class_type", JStr "LoraLoaderModelOnly");
                      ("inputs", JObj [("strength_model", JNum 1)])])].

Definition sample_template : json := JObj sample_fields.

Lemma parameterize_frame_witness :
  exists fs', parameterize 42 "a red cat" sample_template = Ok (JObj fs') /\
    assoc "440" fs' = Some (JObj [("class_type", JStr "LoraLoaderModelOnly");
                                  ("inputs", JObj [("strength_model", JNum 1)])]).
Proof.
  assert (E0 : exists w', parameterize 42 "a red cat" (JObj sample_fields) = Ok w')
    by (eexists; reflexivity).
  destruct E0 as [w' E0].
  destruct (proj1 parameterize_frame 42 "a red cat" sample_fields w' E0) as (fs' & E & _ & A).
  exists fs'. split; [rewrite <- E; exact E0|].
  rewrite (A "440"); [reflexivity|].
  simpl. intros H. repeat (destruct H as [H|H]; [discriminate|]). exact H.
Defined.

(** C9 (counterexample): a template whose negative-prompt node 110 has no
    [inputs] is left as it is by the prompt injection: the node gets no
    [text] field at all, let alone an empty one. *)
Definition template_110_without_inputs : json :=
  JObj [("110", JObj [("class_type", JStr "CLIPTextEncode")])].

Lemma inject_prompts_negative_absent :
  inject_prompts "a red cat" template_110_without_inputs = Ok template_110_without_inputs /\
  node_input template_110_without_inputs "110" "text" <> Some (JStr "").
Proof. split; [reflexivity|discriminate]. Qed.

(** C9 (as amended): the prompt injection is idempotent: applied to its own
    result it returns that result unchanged. When node 110 exists with an
    object [inputs], its [text] and [prompt] are the empty string
    afterwards; when node 111 exists with an object [inputs], its [text]
    and [prompt] are the primary prompt. A node 110 or 111 that is falsy or
    has no truthy [inputs] is skipped by the guard: it is left as it was,
    so it gets no such fields. *)
Theorem inject_prompts_idempotent (p : string) (w w1 : json) :
  inject_prompts p w = Ok w1 ->
  inject_prompts p w1 = Ok w1 /\
  (forall node ifs, get_prop w "110" = Ok (Some node) ->
     get_prop node "inputs" = Ok (Some (JObj ifs)) ->
     node_input w1 "110" "text" = Some (JStr "") /\
     node_input w1 "110" "prompt" = Some (JStr "")) /\
  (forall node ifs, get_prop w "111" = Ok (Some node) ->
     get_prop node "inputs" = Ok (Some (JObj ifs)) ->
     node_input w1 "111" "text" = Some (JStr p) /\
     node_input w1 "111" "prompt" = Some (JStr p)) /\
  (forall k node, (k = "110" \/ k = "111") -> get_prop w k = Ok (Some node) ->
     (truthy node = false \/ exists i, get_prop node "inputs" = Ok i /\ truthy_opt i = false) ->
     get_prop w1 k = Ok (Some node)).
Proof.
  intros H. unfold inject_prompts in H. apply rbind_ok in H as (w2 & H2 & H1).
  assert (E111 : get_prop w1 "111" = get_prop w2 "111")
    by (apply (patch_other "110" "111" _ w2 w1 H1); discriminate).
  assert (E110 : get_prop w2 "110" = get_prop w "110")
    by (apply (patch_other "111" "110" _ w w2 H2); discriminate).
  split; [|split; [|split]].
  - assert (S2 : stable_at "111" (set_prompt p) w2)
      by (eapply patch_makes_stable; [apply set_prompt_stable|exact H2]).
    assert (S1 : stable_at "111" (set_prompt p) w1)
      by (intros node inp Hn; rewrite E111 in Hn; exact (S2 node inp Hn)).
    assert (T1 : stable_at "110" (set_prompt "") w1)
      by (eapply patch_makes_stable; [apply set_prompt_stable|exact H1]).
    pose proof (patch_not_null _ _ _ _ H1) as N1.
    unfold inject_prompts. rewrite (patch_stable_id _ _ _ N1 S1). cbn [rbind].
    apply patch_stable_id; assumption.
  - intros node ifs Hn Hi. rewrite <- E110 in Hn.
    exact (patch_prompt_fields _ _ _ _ _ _ Hn Hi H1).
  - intros node ifs Hn Hi.
    destruct (patch_prompt_fields _ _ _ _ _ _ Hn Hi H2) as [A B].
    unfold node_input in *. rewrite E111. auto.
  - intros k node [->| ->] Hn Hg.
    + rewrite <- E110 in Hn. rewrite (patch_skip _ _ _ _ Hn Hg) in H1.
      injection H1 as <-. exact Hn.
    + rewrite (patch_skip _ _ _ _ Hn Hg) in H2. injection H2 as <-.
      rewrite E111. exact Hn.
Qed.

Lemma inject_prompts_idempotent_witness :
  exists w1, inject_prompts "a red cat" sample_template = Ok w1 /\
    inject_prompts "a red cat" w1 = Ok w1 /\
    node_input w1 "110" "text" = Some (JStr "").
Proof.
  assert (E0 : exists w1, inject_prompts "a red cat" sample_template = Ok w1)
    by (eexists; reflexivity).
  destruct E0 as [w1 E0]. exists w1.
  destruct (inject_prompts_idempotent _ _ _ E0) as [I [N _]].
  split; [exact E0|]. split; [exact I|].
  apply (N (JObj [("inputs", JObj [("text", JStr "ugly")])]) [("text", JStr "ugly")]);
    reflexivity.
Defined.

(** The exponent chosen by [round_binary64] for a product below [2^50]. *)
Lemma round_exponent_small (P Q : Z) :
  0 <= P -> 0 < Q -> P < 2 ^ 50 * Q ->
  Z.max (-1074) (Z.log2 (P * 2 ^ 1200 / Q) - 1200 - 52) <= -3.
Proof.
  intros HP HQ Hlt.
  assert (HS : P * 2 ^ 1200 / Q < 2 ^ 1250).
  { apply Z.div_lt_upper_bound; [exact HQ|].
    replace (2 ^ 1250) with (2 ^ 50 * 2 ^ 1200) by reflexivity.
    assert (0 < 2 ^ 1200) by (apply Z.pow_pos_nonneg; lia). nia. }
  assert (HL : Z.log2 (P * 2 ^ 1200 / Q) <= 1249).
  { destruct (Z.le_gt_cases (P * 2 ^ 1200 / Q) 0) as [Hle|Hgt].
    - rewrite Z.log2_nonpos by exact Hle. lia.
    - apply Z.log2_lt_pow2 in HS; lia. }
  lia.
Qed.

(** The final bound: a significand rounded to nearest from [P * K / q]. *)
Lemma seed_arith (P q K n' : Z) :
  0 < q -> 8 <= K -> 0 <= n' ->
  P * 2 ^ 53 <= (2 ^ 53 - 1) * seed_scale * q ->
  2 * (q * n') <= 2 * (P * K) + q ->
  0 <= n' / K < seed_scale.
Proof.
  intros Hq HK Hn HP Hr.
  assert (Hup : n' < seed_scale * K).
  { destruct (Z.lt_ge_cases n' (seed_scale * K)) as [Hc|Hc]; [exact Hc|exfalso].
    assert (H1 : q * (seed_scale * K) <= q * n') by (apply Z.mul_le_mono_nonneg_l; lia).
    assert (H2 : P * 2 ^ 53 * K <= (2 ^ 53 - 1) * seed_scale * q * K)
      by (apply Z.mul_le_mono_nonneg_r; lia).
    assert (H3 : 8 * q <= q * K) by nia.
    replace (q * (seed_scale * K)) with (seed_scale * (q * K)) in H1 by ring.
    replace (P * 2 ^ 53 * K) with (2 ^ 53 * (P * K)) in H2 by ring.
    replace ((2 ^ 53 - 1) * seed_scale * q * K) with ((2 ^ 53 - 1) * seed_scale * (q * K)) in H2 by ring.
    unfold seed_scale in *. change (2 ^ 53) with 9007199254740992 in *. lia. }
  split.
  - apply Z.div_pos; lia.
  - apply Z.div_lt_upper_bound; lia.
Qed.

(** Every double [p / q] in [0, 1) (at most [1 - 2^-53]) gives a seed in
    [0, 10^15). *)
Lemma random_seed_range (p q : Z) :
  0 <= p -> 0 < q -> p * 2 ^ 53 <= (2 ^ 53 - 1) * q ->
  0 <= random_seed (p, q) < seed_scale.
Proof.
  intros Hp Hq Hr.
  cbv beta zeta delta [random_seed round_binary64 floor_binary64]. cbn [fst snd].
  set (P := p * seed_scale).
  assert (Hpq : p < q) by lia.
  assert (HP : 0 <= P) by (unfold P, seed_scale; lia).
  assert (HP50 : P < 2 ^ 50 * q).
  { unfold P, seed_scale. change (2 ^ 50) with 1125899906842624.
    assert (p * 1000000000000000 <= (q - 1) * 1000000000000000)
      by (apply Z.mul_le_mono_nonneg_r; lia).
    lia. }
  assert (Hbig : P * 2 ^ 53 <= (2 ^ 53 - 1) * seed_scale * q).
  { unfold P. replace (p * seed_scale * 2 ^ 53) with (p * 2 ^ 53 * seed_scale) by ring.
    replace ((2 ^ 53 - 1) * seed_scale * q) with ((2 ^ 53 - 1) * q * seed_scale) by ring.
    apply Z.mul_le_mono_nonneg_r; [unfold seed_scale; lia|exact Hr]. }
  pose proof (round_exponent_small P q HP Hq HP50) as He.
  set (e := Z.max (-1074) (Z.log2 (P * 2 ^ 1200 / q) - 1200 - 52)) in *.
  assert (Hlt : (e <? 0) = true) by (apply Z.ltb_lt; lia).
  rewrite Hlt. cbn [fst snd].
  assert (HK : 8 <= 2 ^ (- e)).
  { change 8 with (2 ^ 3). apply Z.pow_le_mono_r; lia. }
  set (K := 2 ^ (- e)) in *.
  assert (Hdm : P * K = q * (P * K / q) + P * K mod q) by (apply Z.div_mod; lia).
  assert (Hrb : 0 <= P * K mod q < q) by (apply Z.mod_pos_bound; lia).
  assert (Hn : 0 <= P * K / q) by (apply Z.div_pos; lia).
  destruct (_ || _) eqn:Hc; apply (seed_arith P q K); lia.
Qed.

(** C8: the seed injected by a build is an integer in [0, 10^15) for every
    value [Math.random()] can return; every successful build draws a fresh
    value from the generator (the generator advances by one), and the
    sampler node 3 receives the seed computed from that build's own draw,
    whatever seed the template carried. *)
Theorem buildWorkflow_fresh_seed :
  (forall p q, 0 <= p -> 0 < q -> p * 2 ^ 53 <= (2 ^ 53 - 1) * q ->
     0 <= random_seed (p, q) < seed_scale) /\
  (forall rng c prompt file w c',
     buildWorkflow rng c prompt file = (Ok w, c') -> c' = S c) /\
  (forall rng c prompt file w0 w1 node ifs,
     load_workflow file = Ok w0 -> pre_seed_patches prompt w0 = Ok w1 ->
     get_prop w1 "3" = Ok (Some node) -> get_prop node "inputs" = Ok (Some (JObj ifs)) ->
     exists w, buildWorkflow rng c prompt file = (Ok w, S c) /\
       node_input w "3" "seed" = Some (JNum (random_seed (rng c)))).
Proof.
  split; [|split].
  - exact random_seed_range.
  - intros rng c prompt file w c'. unfold buildWorkflow.
    destruct (load_workflow file) as [w0|e]; [|discriminate].
    destruct (pre_seed_patches prompt w0) as [w1|e]; [|discriminate].
    intros H. injection H as _ <-. reflexivity.
  - intros rng c prompt file w0 w1 node ifs Hl Hp Hn Hi.
    unfold buildWorkflow. rewrite Hl, Hp.
    unfold patch_node. rewrite Hn. cbn [rbind].
    rewrite (get_some_truthy _ _ _ Hi), Hi. cbn [rbind truthy set_seed set_prop].
    eexists. split; [reflexivity|].
    unfold node_input. rewrite (get_put_same _ _ _ _ Hn), (get_put_same _ _ _ _ Hi).
    simpl. rewrite assoc_set_same. reflexivity.
Qed.

Lemma buildWorkflow_fresh_seed_witness :
  0 <= random_seed (2 ^ 53 - 1, 2 ^ 53) < seed_scale /\
  random_seed (2 ^ 53 - 1, 2 ^ 53) = 999999999999999.
Proof.
  split.
  - apply (proj1 buildWorkflow_fresh_seed); vm_compute; congruence.
  - vm_compute. reflexivity.
Defined.

(** Distinct messages: two strings that differ at a given position. *)
Ltac differ_at n :=
  let H := fresh in
  intros H; apply (f_equal (String.get n%nat)) in H; cbn in H; discriminate.

(** A loop that only ever sees [IN_QUEUE] or [IN_PROGRESS] ends with the
    timeout error, whatever its fuel and start time. *)
Lemma async_loop_pending_timeout resp lat :
  (forall i, exists j, resp i = Ok j /\ (rp_status j = IN_QUEUE \/ rp_status j = IN_PROGRESS)) ->
  forall fuel i el, snd (async_loop resp lat fuel i el) = Err timed_out_message.
Proof.
  intros Hr fuel. induction fuel as [|f IH]; intros i el; cbn [async_loop].
  - destruct (el <? asyncMaxWaitTime); reflexivity.
  - destruct (el <? asyncMaxWaitTime); [|reflexivity].
    destruct (Hr i) as [j [Hj Hs]]. rewrite Hj.
    destruct Hs as [Hs|Hs]; rewrite Hs;
    match goal with |- context [async_loop resp lat f (S i) ?e] =>
      specialize (IH (S i) e); destruct (async_loop resp lat f (S i) e) end;
    exact IH.
Qed.

Lemma wait_loop_pending_timeout resp lat mw :
  (forall i, exists j, resp i = Ok j /\ (rp_status j = IN_QUEUE \/ rp_status j = IN_PROGRESS)) ->
  forall fuel i el, snd (wait_loop resp lat mw fuel i el) = Err timed_out_message.
Proof.
  intros Hr fuel. induction fuel as [|f IH]; intros i el; cbn [wait_loop].
  - destruct (el <? mw); reflexivity.
  - destruct (el <? mw); [|reflexivity].
    destruct (Hr i) as [j [Hj Hs]]. rewrite Hj.
    destruct Hs as [Hs|Hs]; rewrite Hs;
    match goal with |- context [wait_loop resp lat mw f (S i) ?e] =>
      specialize (IH (S i) e); destruct (wait_loop resp lat mw f (S i) e) end;
    exact IH.
Qed.

(** The loop of [waitForCompletion] has no cold-start branch. *)
Lemma wait_loop_no_cold resp lat mw c :
  forall fuel i el, ~ In (EvColdStart c) (fst (wait_loop resp lat mw fuel i el)).
Proof.
  intros fuel. induction fuel as [|f IH]; intros i el; cbn [wait_loop].
  - destruct (el <? mw); simpl; tauto.
  - destruct (el <? mw); [|simpl; tauto].
    destruct (resp i) as [j|m]; [|simpl; intros [H|H]; [discriminate|exact H]].
    destruct (rp_status j);
      try (match goal with |- context [wait_loop resp lat mw f (S i) ?e] =>
             specialize (IH (S i) e); destruct (wait_loop resp lat mw f (S i) e) end);
      simpl; intros [H|H]; try discriminate; auto.
Qed.

(** Two polls of [executeAsync]'s loop whenever the first answer is not
    [COMPLETED] or [FAILED] and the deadline is not yet reached. *)
Lemma async_loop_second_poll resp lat f j :
  resp 0%nat = Ok j -> (rp_status j = CANCELLED \/ rp_status j = TIMED_OUT) ->
  Z.of_nat (lat 0%nat) + asyncPollInterval < asyncMaxWaitTime ->
  exists evs r, async_loop resp lat (S (S f)) 0 0 = (EvPoll 0 :: EvPoll 1 :: evs, r).
Proof.
  intros Hj Hs Hl. cbn [async_loop].
  replace (0 <? asyncMaxWaitTime) with true by reflexivity.
  rewrite Hj.
  replace (0 + Z.of_nat (lat 0%nat) + asyncPollInterval <? asyncMaxWaitTime) with true
    by (symmetry; apply Z.ltb_lt; lia).
  destruct Hs as [Hs|Hs]; rewrite Hs; cbn [is_in_queue andb app];
  (destruct (resp 1%nat) as [j'|m];
   [destruct (rp_status j');
    try (eexists _, _; reflexivity);
    match goal with |- context [async_loop resp lat f (S 1) ?e] =>
      destruct (async_loop resp lat f (S 1) e) end;
    eexists _, _; reflexivity
   | eexists _, _; reflexivity]).
Qed.

Lemma sweep_lookup now s id r :
  sweep now s !! id = Some r <-> s !! id = Some r /\ now - retentionMs <= startedAt r.
Proof.
  unfold sweep. rewrite map_lookup_filter_Some. simpl. split; intros [H1 H2]; split; auto; lia.
Qed.

(** C5: when every status query answers [IN_QUEUE] or [IN_PROGRESS], both
    poll loops end with the timeout error once the wall-clock budget is
    spent; its text differs from every remote-failure error and every
    status-query error, and the background task stores it in a [failed]
    record. *)
Theorem poll_timeout_distinct resp lat (w : json) (rid : string) (mw : Z) :
  (forall i, exists j, resp i = Ok j /\ (rp_status j = IN_QUEUE \/ rp_status j = IN_PROGRESS)) ->
  snd (executeAsync resp lat (Ok w) (Ok rid)) = Err (execution_error timed_out_message) /\
  snd (waitForCompletion resp lat mw) = Err timed_out_message /\
  (forall e, execution_error timed_out_message <> execution_error ("Job failed: " ++ e)) /\
  (forall m, execution_error timed_out_message <> execution_error (status_error m)) /\
  (forall s e, timed_out_message <> "Job " ++ status_lower s ++ ": " ++ e) /\
  (forall m, timed_out_message <> status_error m) /\
  (forall id t (s : store),
     finish id (Err (execution_error timed_out_message)) t s !! id
     = Some (failed_record (execution_error timed_out_message) t)).
Proof.
  intros Hr. split; [|split; [|split; [|split; [|split; [|split]]]]].
  - unfold executeAsync.
    pose proof (async_loop_pending_timeout resp lat Hr async_fuel 0 0) as H.
    destruct (async_loop resp lat async_fuel 0 0). cbn in H |- *. rewrite H. reflexivity.
  - exact (wait_loop_pending_timeout resp lat mw Hr _ 0 0).
  - intros e. unfold execution_error, timed_out_message. differ_at 29%nat.
  - intros m. unfold execution_error, timed_out_message, status_error. differ_at 25%nat.
  - intros s e. unfold timed_out_message. destruct s; differ_at 9%nat.
  - intros m. unfold timed_out_message, status_error. differ_at 0%nat.
  - intros id t s. unfold finish. apply lookup_insert_eq.
Qed.

Lemma poll_timeout_distinct_witness :
  (forall i, exists j, responses [] i = Ok j /\ (rp_status j = IN_QUEUE \/ rp_status j = IN_PROGRESS)) /\
  snd (executeAsync (responses []) (fun _ => 0%nat) (Ok JNull) (Ok "rp-1"))
    = Err (execution_error timed_out_message).
Proof.
  assert (H : forall i, exists j, responses [] i = Ok j /\
                (rp_status j = IN_QUEUE \/ rp_status j = IN_PROGRESS)).
  { intros i. exists (job IN_QUEUE None). split.
    - unfold responses. destruct i; reflexivity.
    - left. reflexivity. }
  split; [exact H|].
  exact (proj1 (poll_timeout_distinct (responses []) (fun _ => 0%nat) JNull "rp-1" 300000 H)).
Defined.

(** C1: [executeAsync]'s loop stops only on [COMPLETED] and [FAILED]: after a
    [CANCELLED] or [TIMED_OUT] answer to the first query, with time left, it
    issues a second status query. *)
Theorem executeAsync_polls_after_terminal resp lat (w : json) (rid : string) j :
  resp 0%nat = Ok j -> (rp_status j = CANCELLED \/ rp_status j = TIMED_OUT) ->
  Z.of_nat (lat 0%nat) + asyncPollInterval < asyncMaxWaitTime ->
  exists evs r, executeAsync resp lat (Ok w) (Ok rid) = (EvPoll 0 :: EvPoll 1 :: evs, r).
Proof.
  intros Hj Hs Hl. unfold executeAsync.
  change async_fuel with (S (S (Z.to_nat (asyncMaxWaitTime / asyncPollInterval) - 1))).
  destruct (async_loop_second_poll resp lat
              (Z.to_nat (asyncMaxWaitTime / asyncPollInterval) - 1) j Hj Hs Hl)
    as [evs [r E]].
  rewrite E. exists evs, (wrap_execution r). reflexivity.
Qed.

Lemma executeAsync_polls_after_terminal_witness :
  responses [CANCELLED; COMPLETED] 0%nat = Ok (job CANCELLED None) /\
  exists evs r, executeAsync (responses [CANCELLED; COMPLETED]) (fun _ => 0%nat)
                  (Ok JNull) (Ok "rp-1") = (EvPoll 0 :: EvPoll 1 :: evs, r).
Proof.
  split; [reflexivity|].
  apply (executeAsync_polls_after_terminal _ _ JNull "rp-1" (job CANCELLED None));
    [reflexivity | left; reflexivity | vm_compute; reflexivity].
Defined.

(** C7: [waitForCompletion] never emits the cold-start signal: with every
    answer [IN_QUEUE], no latency and the default budget, its ninth query
    (16 s after the start) passes without one. *)
Theorem waitForCompletion_no_cold_start :
  (forall resp lat mw c, ~ In (EvColdStart c) (fst (waitForCompletion resp lat mw))) /\
  In (EvPoll 8) (fst (waitForCompletion (responses []) (fun _ => 0%nat) waitDefaultMaxWaitTime)).
Proof.
  split.
  - intros resp lat mw c. apply wait_loop_no_cold.
  - vm_compute. tauto.
Qed.

(** C4: right after a submission turn the store already holds [processing]
    for the new id, whatever the store held before: the [pending] record is
    overwritten within the same turn, so no status request observes it. *)
Theorem generate_status_processing (s : store) (id prompt : string) (t : Z) :
  prompt <> "" ->
  status_of id (step (TGenerate id prompt t) s) = Some processing.
Proof.
  intros Hp. cbn [step]. unfold generate_sync, status_of.
  destruct (String.eqb_spec prompt ""); [contradiction|].
  rewrite lookup_insert_eq. reflexivity.
Qed.

Lemma generate_status_processing_witness :
  "a red cat" <> "" /\
  status_of "job_1" (run [TGenerate "job_1" "a red cat" 0; TStatus "job_1"] ∅) = Some processing.
Proof.
  split; [discriminate|].
  exact (generate_status_processing ∅ "job_1" "a red cat" 0 ltac:(discriminate)).
Defined.

(** C3 (code bug): the hour of retention is not counted from the record's
    creation. The background task re-stamps [startedAt] with [Date.now()]
    when it stores the completed or failed record (server.ts 303, 318), so a
    job submitted at [t0] and finished at [t1] survives every sweep at a time
    [now] with [now - t1 <= 1 hour], however long ago [t0] was; it keeps its
    final status. *)
Theorem sweep_counts_from_last_write (s : store) id p t0 o t1 now :
  p <> "" -> now - t1 <= retentionMs ->
  option_map startedAt (run [TGenerate id p t0; TFinish id o t1; TSweep now] s !! id) = Some t1 /\
  status_of id (run [TGenerate id p t0; TFinish id o t1; TSweep now] s)
    = Some (match o with Ok _ => completed | Err _ => failed end).
Proof.
  intros Hp Ht. unfold run. cbn [fold_left step].
  set (s1 := generate_sync id p t0 s).
  assert (E : sweep now (finish id o t1 s1) !! id
              = Some (match o with Ok g => completed_record g t1 | Err m => failed_record m t1 end)).
  { apply sweep_lookup. unfold finish.
    destruct o; rewrite lookup_insert_eq; (split; [reflexivity|]); simpl; lia. }
  unfold status_of. rewrite E. destruct o; split; reflexivity.
Qed.

Lemma sweep_counts_from_last_write_witness :
  4200000 - 0 > retentionMs /\
  option_map startedAt (run [TGenerate "job_1" "a red cat" 0; TFinish "job_1" (Err "boom") 3000000;
                             TSweep 4200000] ∅ !! "job_1") = Some 3000000.
Proof.
  split; [vm_compute; reflexivity|].
  apply (proj1 (sweep_counts_from_last_write ∅ "job_1" "a red cat" 0 (Err "boom") 3000000 4200000
                  ltac:(discriminate) ltac:(vm_compute; discriminate))).
Defined.

(* ------------------------------------------------------------------ *)
(** * Further properties of the code *)

Lemma js_split_pieces c s : forall p, In p (js_split c s) -> str_has c p = false.
Proof.
  induction s as [|a s IH]; intros p; simpl.
  - intros [<-|[]]; reflexivity.
  - destruct (Ascii.eqb a c) eqn:Ea.
    + intros [<-|H]; [reflexivity|auto].
    + destruct (js_split c s) as [|r rs] eqn:Es.
      * intros [<-|[]]. simpl. rewrite Ea. reflexivity.
      * intros [<-|H]; [|apply IH; right; exact H].
        simpl. rewrite Ea. apply IH. left. reflexivity.
Qed.

Lemma trim_start_has c s : str_has c (trim_start s) = true -> str_has c s = true.
Proof.
  induction s as [|a s IH]; simpl; [auto|].
  destruct (is_js_space a); [intros H; rewrite (IH H), orb_true_r; reflexivity|simpl; auto].
Qed.

Lemma trim_end_has c s : str_has c (trim_end s) = true -> str_has c s = true.
Proof.
  induction s as [|a s IH]; simpl; [auto|].
  destruct (String.eqb (trim_end s) "" && is_js_space a); simpl; [discriminate|].
  intros H. apply orb_true_iff in H as [H|H]; [rewrite H; reflexivity|rewrite (IH H), orb_true_r; reflexivity].
Qed.

Lemma trim_end_idem s : trim_end (trim_end s) = trim_end s.
Proof.
  induction s as [|a s IH]; simpl; [reflexivity|].
  destruct (String.eqb (trim_end s) "" && is_js_space a) eqn:E; [reflexivity|].
  simpl. rewrite IH, E. reflexivity.
Qed.

Lemma trim_start_head s :
  trim_start s = "" \/ exists a r, trim_start s = String a r /\ is_js_space a = false.
Proof.
  induction s as [|a s IH]; simpl; [auto|].
  destruct (is_js_space a) eqn:E; [exact IH|right; eauto].
Qed.

Lemma trim_end_head a r : is_js_space a = false -> trim_end (String a r) = String a (trim_end r).
Proof. intros H. simpl. rewrite H, andb_false_r. reflexivity. Qed.

Lemma js_trim_idem s : js_trim (js_trim s) = js_trim s.
Proof.
  unfold js_trim.
  destruct (trim_start_head s) as [E|(a & r & E & Ha)]; rewrite E; [reflexivity|].
  rewrite (trim_end_head a r Ha). simpl. rewrite Ha.
  rewrite <- (trim_end_head a r Ha). apply trim_end_idem.
Qed.

Lemma js_trim_nonempty_has c s : str_has c (js_trim s) = true -> str_has c s = true.
Proof. unfold js_trim. intros H. apply trim_start_has, trim_end_has, H. Qed.

(** X1: Every key of [VALID_API_KEYS] is nonempty, has no surrounding whitespace
    and contains no comma, whatever [API_ACCESS_KEYS] holds (or if it is unset). *)
Lemma set_add_all_In x acc l : In x (set_add_all acc l) <-> In x acc \/ In x l.
Proof.
  revert acc. induction l as [|y l IH]; intros acc; simpl; [tauto|].
  rewrite IH. destruct (existsb (String.eqb y) acc) eqn:E.
  - apply existsb_exists in E as (z & Hz & Ez). apply String.eqb_eq in Ez. subst z.
    split; [tauto|intros [H|[<-|H]]; auto].
  - rewrite in_app_iff. simpl. tauto.
Qed.

Lemma set_add_all_nodup acc l :
  List.NoDup (acc ++ l) -> set_add_all acc l = (acc ++ l)%list.
Proof.
  revert acc. induction l as [|y l IH]; intros acc Hnd; simpl; [rewrite app_nil_r; reflexivity|].
  assert (E : existsb (String.eqb y) acc = false).
  { apply not_true_iff_false. intros E. apply existsb_exists in E as (z & Hz & Ez).
    apply String.eqb_eq in Ez. subst z.
    apply NoDup_remove_2 in Hnd. apply Hnd. apply in_app_iff. left. exact Hz. }
  rewrite E, IH; [rewrite <- app_assoc; reflexivity|].
  rewrite <- app_assoc. exact Hnd.
Qed.

Theorem parse_api_keys_well_formed env :
  forallb well_formed_key (parse_api_keys env) = true.
Proof.
  apply forallb_forall. intros k Hk. unfold parse_api_keys in Hk.
  apply set_add_all_In in Hk as [[]|Hk].
  apply filter_In in Hk as [Hk Hne]. apply in_map_iff in Hk as (p & <- & Hp).
  unfold well_formed_key. rewrite Hne, js_trim_idem, String.eqb_refl. simpl.
  destruct (str_has ","%char (js_trim p)) eqn:E; [|reflexivity].
  apply js_trim_nonempty_has in E. rewrite (js_split_pieces _ _ p Hp) in E. discriminate.
Qed.

Lemma js_split_nosep c k : str_has c k = false -> js_split c k = [k].
Proof.
  induction k as [|a k IH]; simpl; [reflexivity|].
  intros H. apply orb_false_iff in H as [H1 H2]. rewrite H1, (IH H2). reflexivity.
Qed.

Lemma js_split_app c k rest : str_has c k = false ->
  js_split c (k ++ String c rest) = k :: js_split c rest.
Proof.
  induction k as [|a k IH]; simpl; intros H.
  - rewrite Ascii.eqb_refl. reflexivity.
  - apply orb_false_iff in H as [H1 H2]. rewrite H1, (IH H2). reflexivity.
Qed.

Lemma js_split_concat c ks : ks <> [] -> Forall (fun k => str_has c k = false) ks ->
  js_split c (String.concat (String c "") ks) = ks.
Proof.
  induction ks as [|k ks IH]; intros Hne Hf; [congruence|].
  inversion Hf as [|? ? Hk Hks]; subst.
  destruct ks as [|k' ks'].
  - simpl. apply js_split_nosep, Hk.
  - change (String.concat (String c "") (k :: k' :: ks')) with
      (k ++ String c (String.concat (String c "") (k' :: ks'))).
    rewrite (js_split_app c k (String.concat (String c "") (k' :: ks')) Hk), IH; [reflexivity|discriminate|exact Hks].
Qed.

(** X2: A list of such keys, joined with commas into [API_ACCESS_KEYS], is
    read back as its distinct keys in order of first occurrence; a list
    without repeats is read back exactly. *)
Theorem parse_api_keys_roundtrip ks :
  forallb well_formed_key ks = true ->
  parse_api_keys (Some (String.concat "," ks)) = new_set ks /\
  (List.NoDup ks -> parse_api_keys (Some (String.concat "," ks)) = ks).
Proof.
  intros Hwf0. pose proof (proj1 (forallb_forall well_formed_key ks) Hwf0) as Hwf. clear Hwf0.
  assert (E : parse_api_keys (Some (String.concat "," ks)) = new_set ks).
  { destruct ks as [|k0 ks0]; [reflexivity|].
    unfold parse_api_keys. f_equal.
    rewrite js_split_concat.
    - rewrite map_ext_in with (g := fun k => k).
      + rewrite map_id. apply forallb_filter_id, forallb_forall.
        intros k Hk. specialize (Hwf k Hk). unfold well_formed_key in Hwf.
        apply andb_prop in Hwf as [Hwf _]. apply andb_prop in Hwf as [Hwf _]. exact Hwf.
      + intros k Hk. specialize (Hwf k Hk). unfold well_formed_key in Hwf.
        apply andb_prop in Hwf as [Hwf _]. apply andb_prop in Hwf as [_ Hwf].
        apply String.eqb_eq, Hwf.
    - discriminate.
    - apply List.Forall_forall. intros k Hk. specialize (Hwf k Hk). unfold well_formed_key in Hwf.
      apply andb_prop in Hwf as [_ Hwf]. apply negb_true_iff, Hwf. }
  split; [exact E|]. intros Hnd. rewrite E. apply (set_add_all_nodup [] ks Hnd).
Qed.

Lemma parse_api_keys_roundtrip_witness :
  parse_api_keys (Some (String.concat "," ["team-a"; "team b"; "team-a"])) = ["team-a"; "team b"].
Proof. apply (proj1 (parse_api_keys_roundtrip ["team-a"; "team b"; "team-a"] eq_refl)). Defined.

(** X3: With no key configured, [authenticateApiKey] rejects every request
    other than [/api/health] with 401 or 403: the API is closed, not open. *)
Theorem no_keys_no_access env f r :
  parse_api_keys env = [] ->
  rq_path r <> "/api/health" ->
  exists code body, authenticateApiKey (parse_api_keys env) f r = AReject code body /\
                    (code = 401 \/ code = 403).
Proof.
  intros He Hp. rewrite He. unfold authenticateApiKey.
  destruct (String.eqb_spec (rq_path r) "/api/health") as [E|_]; [contradiction|].
  destruct (presented_key r) as [[k|]|].
  - destruct (String.eqb k ""); [eexists _, _; split; [reflexivity|auto]|].
    simpl. eexists _, _; split; [reflexivity|auto].
  - eexists _, _; split; [reflexivity|auto].
  - eexists _, _; split; [reflexivity|auto].
Qed.

Lemma no_keys_no_access_witness :
  exists code body, authenticateApiKey (parse_api_keys (Some " , ")) KFMissing
    {| rq_path := "/generate"; rq_header := Some "anything"; rq_query := None |} = AReject code body /\
    (code = 401 \/ code = 403).
Proof. apply no_keys_no_access; [reflexivity|discriminate]. Defined.

(** X4: [authenticateApiKey] lets a request through only on the health path
    (attaching no key) or with a nonempty presented key that is one of the
    configured keys (which it attaches). *)
Theorem authenticate_next keys f r o :
  authenticateApiKey keys f r = ANext o ->
  (o = None /\ rq_path r = "/api/health") \/
  (exists k, o = Some k /\ presented_key r = Some (QStr k) /\ k <> "" /\ In k keys).
Proof.
  unfold authenticateApiKey.
  destruct (String.eqb_spec (rq_path r) "/api/health") as [E|_].
  { intros H. injection H as <-. left. auto. }
  destruct (presented_key r) as [[k|]|]; try discriminate.
  destruct (String.eqb_spec k "") as [_|Hk]; [discriminate|].
  destruct (key_valid keys k) eqn:Hv; simpl; [|discriminate].
  assert (Hin : In k keys).
  { unfold key_valid in Hv. apply existsb_exists in Hv as (x & Hx & Ex).
    apply String.eqb_eq in Ex. subst. exact Hx. }
  intros H. right. exists k.
  destruct (is_status_or_quota (rq_path r)); [injection H as <-; auto|].
  destruct (allowed (checkKeyLimit f k)); [injection H as <-; auto|discriminate].
Qed.

Lemma authenticate_next_witness :
  authenticateApiKey ["k1"] KFMissing {| rq_path := "/generate"; rq_header := None; rq_query := Some (QStr "k1") |}
    = ANext (Some "k1") /\
  exists k, Some "k1" = Some k /\ presented_key {| rq_path := "/generate"; rq_header := None; rq_query := Some (QStr "k1") |} = Some (QStr k) /\ k <> "" /\ In k ["k1"].
Proof.
  assert (H : authenticateApiKey ["k1"] KFMissing
                {| rq_path := "/generate"; rq_header := None; rq_query := Some (QStr "k1") |} = ANext (Some "k1"))
    by reflexivity.
  split; [exact H|].
  destruct (authenticate_next _ _ _ _ H) as [[Hn _]|Hs]; [discriminate|exact Hs].
Defined.

Lemma check_denied_iff f k :
  allowed (checkKeyLimit f k) = false <->
  exists e, lookup_key k (loadKeyLimits f) = Own e /\ kl_limit e <> -1 /\ kl_limit e <= kl_used e.
Proof.
  unfold checkKeyLimit. destruct (lookup_key k (loadKeyLimits f)) as [e| |].
  - destruct (Z.eqb_spec (kl_limit e) (-1)) as [E|E].
    + simpl. split; [discriminate|intros (e' & H & H1 & _); injection H as <-; contradiction].
    + destruct (Z.leb_spec (kl_limit e) (kl_used e)) as [L|L]; simpl.
      * split; [intros _; exists e; auto|reflexivity].
      * split; [discriminate|intros (e' & H & _ & H2); injection H as <-; lia].
  - simpl. split; [discriminate|intros (e & H & _); discriminate].
  - simpl. split; [discriminate|intros (e & H & _); discriminate].
Qed.

(** X5: A 429 answer of [authenticateApiKey] comes only on a path that is
    neither a status nor the quota path, for a configured key whose own
    key-limits.json entry has a limit other than -1 and a usage at or above
    it; the body names that usage and limit. *)
Theorem authenticate_429 keys f r b :
  authenticateApiKey keys f r = AReject 429 b ->
  is_status_or_quota (rq_path r) = false /\
  exists k e, presented_key r = Some (QStr k) /\ In k keys /\
    lookup_key k (loadKeyLimits f) = Own e /\ kl_limit e <> -1 /\ kl_limit e <= kl_used e /\
    b = JObj [("error", JStr "Rate limit exceeded");
              ("message", JStr (limit_message (kl_used e) (kl_limit e)));
              ("remaining", JNum 0)].
Proof.
  unfold authenticateApiKey.
  destruct (String.eqb_spec (rq_path r) "/api/health") as [E|_]; [discriminate|].
  destruct (presented_key r) as [[k|]|]; try discriminate.
  destruct (String.eqb_spec k "") as [_|Hk]; [discriminate|].
  destruct (key_valid keys k) eqn:Hv; simpl; [|discriminate].
  assert (Hin : In k keys).
  { unfold key_valid in Hv. apply existsb_exists in Hv as (x & Hx & Ex).
    apply String.eqb_eq in Ex. subst. exact Hx. }
  destruct (is_status_or_quota (rq_path r)); [discriminate|].
  destruct (allowed (checkKeyLimit f k)) eqn:Ha; [discriminate|].
  intros H. injection H as Hb. split; [reflexivity|].
  pose proof Ha as Ha'. apply check_denied_iff in Ha' as (e & He & H1 & H2).
  exists k, e. do 5 (split; [assumption || reflexivity|]).
  rewrite <- Hb. unfold checkKeyLimit. rewrite He.
  destruct (Z.eqb_spec (kl_limit e) (-1)); [contradiction|].
  destruct (Z.leb_spec (kl_limit e) (kl_used e)); [reflexivity|lia].
Qed.

(** X6: [checkKeyLimit] denies a key exactly when key-limits.json has an own
    entry for it whose limit is not -1 and whose usage is at or above the
    limit; a missing or unreadable file never denies. *)
Theorem checkKeyLimit_denies f k :
  (allowed (checkKeyLimit f k) = false <->
   exists e, lookup_key k (loadKeyLimits f) = Own e /\ kl_limit e <> -1 /\ kl_limit e <= kl_used e) /\
  allowed (checkKeyLimit KFMissing k) = true /\
  allowed (checkKeyLimit KFUnparsable k) = true.
Proof.
  split; [apply check_denied_iff|].
  unfold checkKeyLimit. cbn [loadKeyLimits lookup_key].
  destruct (existsb (String.eqb k) object_prototype_members); split; reflexivity.
Qed.

Lemma authenticate_429_witness :
  is_status_or_quota "/generate" = false /\
  exists k e, presented_key {| rq_path := "/generate"; rq_header := Some "k1"; rq_query := None |} = Some (QStr k) /\
    In k ["k1"] /\ lookup_key k (loadKeyLimits limits_full) = Own e /\ kl_limit e <> -1 /\ kl_limit e <= kl_used e /\
    JObj [("error", JStr "Rate limit exceeded"); ("message", JStr (limit_message 2 2)); ("remaining", JNum 0)] =
    JObj [("error", JStr "Rate limit exceeded");
          ("message", JStr (limit_message (kl_used e) (kl_limit e)));
          ("remaining", JNum 0)].
Proof.
  apply (authenticate_429 ["k1"] limits_full {| rq_path := "/generate"; rq_header := Some "k1"; rq_query := None |}).
  reflexivity.
Defined.

(** X7: A configured key over its limit still passes the authentication of
    [GET /api/status/:jobId], but [GET /api/quota] answers it 429: behind
    the middleware mounted on [/api/] the path is [/quota], so the
    exemption for the quota path does not apply. *)
Theorem quota_route_rate_limited keys f id k q :
  key_valid keys k = true -> k <> "" -> allowed (checkKeyLimit f k) = false ->
  status_auth keys f id (Some k) q = ANext (Some k) /\
  exists b, mounted_auth keys f "/api/quota" (Some k) q = AReject 429 b.
Proof.
  intros Hv Hk Ha. split.
  - unfold status_auth, authenticateApiKey, is_status_or_quota. cbn [rq_path rq_header rq_query presented_key].
    replace (String.eqb ("/api/status/" ++ id) "/api/health") with false by reflexivity.
    replace (String.prefix "/api/status" ("/api/status/" ++ id)) with true by reflexivity.
    assert (E : String.eqb k "" = false) by (apply String.eqb_neq; exact Hk).
    rewrite E. cbv beta iota. rewrite E, Hv. reflexivity.
  - unfold mounted_auth, authenticateApiKey. cbn -[String.eqb key_valid checkKeyLimit].
    assert (E : String.eqb k "" = false) by (apply String.eqb_neq; exact Hk).
    rewrite E. cbv beta iota. rewrite E, Hv. cbn -[checkKeyLimit]. rewrite Ha. eexists. reflexivity.
Qed.

Lemma quota_route_rate_limited_witness :
  status_auth ["k1"] limits_full "job-9" (Some "k1") None = ANext (Some "k1") /\
  exists b, mounted_auth ["k1"] limits_full "/api/quota" (Some "k1") None = AReject 429 b.
Proof. apply quota_route_rate_limited; [reflexivity|discriminate|reflexivity]. Defined.

Lemma lookup_set_same k e e0 es :
  lookup_key k es = Own e0 -> lookup_key k (set_key k e es) = Own e.
Proof.
  induction es as [|[k1 e1] es IH].
  - intros H. cbn [lookup_key] in H.
    destruct (existsb (String.eqb k) object_prototype_members); discriminate H.
  - simpl. destruct (String.eqb_spec k k1) as [->|Hne]; simpl.
    + rewrite String.eqb_refl. reflexivity.
    + intros H. destruct (String.eqb_spec k k1); [contradiction|]. auto.
Qed.

Lemma lookup_set_other k k' e es :
  k' <> k -> lookup_key k' (set_key k e es) = lookup_key k' es.
Proof.
  intros Hne. induction es as [|[k1 e1] es IH]; simpl; [reflexivity|].
  destruct (String.eqb_spec k k1) as [->|Hk]; simpl.
  - destruct (String.eqb_spec k' k1); [contradiction|reflexivity].
  - rewrite IH. reflexivity.
Qed.

Lemma lookup_own_parsed k f e :
  lookup_key k (loadKeyLimits f) = Own e -> f = KFParsed (loadKeyLimits f).
Proof.
  destruct f; cbn [loadKeyLimits lookup_key]; try reflexivity;
    destruct (existsb (String.eqb k) object_prototype_members); intros H; discriminate H.
Qed.

Lemma account_step save_ok k o f e :
  k <> "" -> lookup_key k (loadKeyLimits f) = Own e ->
  let f' := account save_ok k o f in
  lookup_key k (loadKeyLimits f') =
    Own {| kl_name := kl_name e; kl_limit := kl_limit e;
           kl_used := kl_used e + (if save_ok then match o with Ok _ => 1 | Err _ => 0 end else 0) |} /\
  forall k', k' <> k -> lookup_key k' (loadKeyLimits f') = lookup_key k' (loadKeyLimits f).
Proof.
  intros Hk He f'. subst f'. unfold account.
  assert (Ek : String.eqb k "" = false) by (apply String.eqb_neq; exact Hk).
  destruct o as [g|m].
  - rewrite Ek. unfold incrementKeyUsage. rewrite He.
    destruct save_ok; simpl.
    + split; [eapply lookup_set_same; exact He|intros k' Hk'; apply lookup_set_other, Hk'].
    + rewrite ?He, ?Z.add_0_r. destruct e; split; reflexivity.
  - rewrite He. destruct save_ok, e; cbn [kl_used kl_name kl_limit]; rewrite ?Z.add_0_r; split; reflexivity.
Qed.

Lemma account_all_spec save_ok k outs :
  forall f e, k <> "" -> lookup_key k (loadKeyLimits f) = Own e ->
  lookup_key k (loadKeyLimits (account_all save_ok k outs f)) =
    Own {| kl_name := kl_name e; kl_limit := kl_limit e;
           kl_used := kl_used e + (if save_ok then Z.of_nat (count_ok outs) else 0) |} /\
  forall k', k' <> k ->
    lookup_key k' (loadKeyLimits (account_all save_ok k outs f)) = lookup_key k' (loadKeyLimits f).
Proof.
  induction outs as [|o outs IH]; intros f e Hk He.
  - simpl. rewrite He. destruct save_ok; rewrite Z.add_0_r; destruct e; split; reflexivity.
  - destruct (account_step save_ok k o f e Hk He) as [H1 H2].
    change (account_all save_ok k (o :: outs) f) with (account_all save_ok k outs (account save_ok k o f)).
    destruct (IH _ _ Hk H1) as [H3 H4]. simpl in H3. split.
    + rewrite H3. f_equal. f_equal. unfold count_ok. simpl.
      destruct save_ok; [destruct o; simpl; lia|lia].
    + intros k' Hk'. rewrite H4 by exact Hk'. apply H2, Hk'.
Qed.

(** X8: After a sequence of [/api/generate] completions under a key with an own
    entry, its usage has grown by the number of successful ones when the
    file can be written (by none when writes fail); the entries of the
    other keys are unchanged. *)
Theorem account_counts_successes save_ok k outs f e :
  k <> "" -> lookup_key k (loadKeyLimits f) = Own e ->
  lookup_key k (loadKeyLimits (account_all save_ok k outs f)) =
    Own {| kl_name := kl_name e; kl_limit := kl_limit e;
           kl_used := kl_used e + (if save_ok then Z.of_nat (count_ok outs) else 0) |} /\
  forall k', k' <> k ->
    lookup_key k' (loadKeyLimits (account_all save_ok k outs f)) = lookup_key k' (loadKeyLimits f).
Proof. intros Hk He. apply account_all_spec; assumption. Qed.

Lemma account_counts_successes_witness :
  lookup_key "k1" (loadKeyLimits (account_all true "k1" [Ok some_result; Err "boom"; Ok some_result] limits_two)) =
    Own {| kl_name := "team"; kl_limit := 5; kl_used := 1 + 2 |} /\
  forall k', k' <> "k1" ->
    lookup_key k' (loadKeyLimits (account_all true "k1" [Ok some_result; Err "boom"; Ok some_result] limits_two)) =
    lookup_key k' (loadKeyLimits limits_two).
Proof.
  apply (account_counts_successes true "k1" [Ok some_result; Err "boom"; Ok some_result] limits_two
           {| kl_name := "team"; kl_limit := 5; kl_used := 1 |}); [discriminate|reflexivity].
Defined.

(** X9: Requests admitted while the key is still under its limit are all
    counted when they complete: with the same key-limits.json read by each
    admission check, any number of overlapping generations pass, and the
    usage ends above the limit when more of them succeed than were left. *)
Theorem overlapping_requests_pass_limit keys f k q e outs :
  key_valid keys k = true -> k <> "" ->
  lookup_key k (loadKeyLimits f) = Own e -> kl_limit e <> -1 -> kl_used e < kl_limit e ->
  mounted_auth keys f "/api/generate" (Some k) q = ANext (Some k) /\
  lookup_key k (loadKeyLimits (account_all true k outs f)) =
    Own {| kl_name := kl_name e; kl_limit := kl_limit e; kl_used := kl_used e + Z.of_nat (count_ok outs) |}.
Proof.
  intros Hv Hk He Hl Hu. split.
  - unfold mounted_auth, authenticateApiKey. cbn -[String.eqb key_valid checkKeyLimit].
    assert (E : String.eqb k "" = false) by (apply String.eqb_neq; exact Hk).
    rewrite E. cbv beta iota. rewrite E, Hv. cbn -[checkKeyLimit].
    unfold checkKeyLimit. rewrite He.
    destruct (Z.eqb_spec (kl_limit e) (-1)); [contradiction|].
    destruct (Z.leb_spec (kl_limit e) (kl_used e)); [lia|reflexivity].
  - apply (account_all_spec true k outs f e Hk He).
Qed.

Lemma overlapping_requests_pass_limit_witness :
  mounted_auth ["k1"] limits_two "/api/generate" (Some "k1") None = ANext (Some "k1") /\
  lookup_key "k1" (loadKeyLimits (account_all true "k1" (repeat (Ok some_result) 6) limits_two)) =
    Own {| kl_name := "team"; kl_limit := 5; kl_used := 1 + 6 |}.
Proof.
  apply (overlapping_requests_pass_limit ["k1"] limits_two "k1" None
           {| kl_name := "team"; kl_limit := 5; kl_used := 1 |}); try reflexivity; try discriminate.
Defined.

Lemma send_time_step lat iv i :
  send_time lat iv (S i) = send_time lat iv i + Z.of_nat (lat i) + iv.
Proof. reflexivity. Qed.

Lemma send_time_lower lat iv i : 0 <= iv -> iv * Z.of_nat i <= send_time lat iv i.
Proof.
  intros Hiv. induction i as [|i IH]; [simpl; lia|].
  rewrite send_time_step. lia.
Qed.

Lemma send_time_mono lat iv i j : 0 <= iv -> (i <= j)%nat -> send_time lat iv i <= send_time lat iv j.
Proof.
  intros Hiv Hij. induction Hij as [|j Hij IH]; [lia|].
  rewrite send_time_step. lia.
Qed.

Lemma async_loop_late resp lat fuel i el :
  asyncMaxWaitTime <= el -> async_loop resp lat fuel i el = ([], Err timed_out_message).
Proof.
  intros H. destruct fuel; cbn [async_loop];
    replace (el <? asyncMaxWaitTime) with false by (symmetry; apply Z.ltb_ge; lia);
    reflexivity.
Qed.

Lemma async_loop_step resp lat f i el :
  el < asyncMaxWaitTime ->
  async_loop resp lat (S f) i el =
    if async_continues (resp i) then
      let t := el + Z.of_nat (lat i) in
      let cold := match resp i with
                  | Ok j => if is_in_queue (rp_status j) && (t >? coldStartMs) then [EvColdStart i] else []
                  | Err _ => []
                  end in
      let '(evs, r) := async_loop resp lat f (S i) (t + asyncPollInterval) in
      (EvPoll i :: cold ++ evs, r)%list
    else ([EvPoll i], async_stop (resp i)).
Proof.
  intros H. cbn [async_loop].
  replace (el <? asyncMaxWaitTime) with true by (symmetry; apply Z.ltb_lt; exact H).
  unfold async_continues, async_stop.
  destruct (resp i) as [j|m]; [destruct (rp_status j)|]; reflexivity.
Qed.

Lemma async_loop_from resp lat fuel :
  forall i el e, In e (fst (async_loop resp lat fuel i el)) -> (i <= ev_index e)%nat.
Proof.
  induction fuel as [|f IH]; intros i el e.
  - cbn [async_loop]. destruct (el <? asyncMaxWaitTime); simpl; tauto.
  - destruct (Z.lt_ge_cases el asyncMaxWaitTime) as [Hl|Hl];
      [|rewrite async_loop_late by exact Hl; simpl; tauto].
    rewrite async_loop_step by exact Hl.
    destruct (async_continues (resp i)); [|simpl; intros [<-|[]]; simpl; lia].
    cbv zeta.
    pose proof (IH (S i) (el + Z.of_nat (lat i) + asyncPollInterval) e) as IHe.
    destruct (async_loop resp lat f (S i) _) as [evs r]. simpl in IHe |- *.
    intros [<-|H]; [simpl; lia|].
    apply in_app_or in H as [H|H]; [|specialize (IHe H); lia].
    destruct (resp i); [destruct (_ && _)|]; simpl in H; [destruct H as [<-|[]]; simpl; lia|tauto|tauto].
Qed.

Lemma async_loop_polls resp lat fuel :
  forall i, (fuel + i = async_fuel)%nat ->
  forall j, In (EvPoll j) (fst (async_loop resp lat fuel i (send_time lat asyncPollInterval i))) <->
    (i <= j)%nat /\ (forall k, (i <= k < j)%nat -> async_continues (resp k) = true) /\
    send_time lat asyncPollInterval j < asyncMaxWaitTime.
Proof.
  induction fuel as [|f IH]; intros i Hf j.
  - cbn [async_loop]. assert (Hn : async_fuel = 121%nat) by reflexivity.
    split; [destruct (_ <? _); simpl; tauto|].
    intros (Hij & _ & Ht). exfalso.
    pose proof (send_time_lower lat asyncPollInterval j ltac:(unfold asyncPollInterval; lia)) as L.
    unfold asyncPollInterval, asyncMaxWaitTime in *. lia.
  - set (ST := send_time lat asyncPollInterval) in *.
    destruct (Z.lt_ge_cases (ST i) asyncMaxWaitTime) as [Hl|Hl].
    + rewrite async_loop_step by exact Hl.
      destruct (async_continues (resp i)) eqn:Hc.
      * cbv zeta. change (ST i + Z.of_nat (lat i) + asyncPollInterval) with (ST (S i)).
        specialize (IH (S i) ltac:(lia) j).
        destruct (async_loop resp lat f (S i) (ST (S i))) as [evs r]. simpl in IH |- *.
        assert (Hnp : forall c, In (EvPoll j) (match c with
                        | Ok j0 => if is_in_queue (rp_status j0) && (ST i + Z.of_nat (lat i) >? coldStartMs)
                                   then [EvColdStart i] else []
                        | Err _ => [] end) -> False).
        { intros c. destruct c; [destruct (_ && _)|]; simpl; [intros [H|[]]; discriminate|tauto|tauto]. }
        split.
        -- intros [H|H]; [injection H as <-; split; [lia|split; [intros; lia|exact Hl]]|].
           apply in_app_or in H as [H|H]; [destruct (Hnp _ H)|].
           apply IH in H as (H1 & H2 & H3).
           split; [lia|split; [|exact H3]].
           intros k Hk. destruct (Nat.eq_dec k i) as [->|]; [exact Hc|apply H2; lia].
        -- intros (H1 & H2 & H3).
           destruct (Nat.eq_dec i j) as [->|Hne]; [left; reflexivity|right].
           apply in_or_app. right. apply IH.
           split; [lia|split; [intros k Hk; apply H2; lia|exact H3]].
      * simpl. split.
        -- intros [H|[]]. injection H as <-. split; [lia|split; [intros; lia|exact Hl]].
        -- intros (H1 & H2 & H3). left.
           destruct (Nat.eq_dec i j) as [->|Hne]; [reflexivity|].
           rewrite H2 in Hc by lia. discriminate.
    + rewrite async_loop_late by exact Hl. simpl. split; [tauto|].
      intros (H1 & _ & H3).
      pose proof (send_time_mono lat asyncPollInterval i j ltac:(unfold asyncPollInterval; lia) H1).
      fold ST in H. lia.
Qed.

Lemma async_loop_cold resp lat fuel :
  forall i j, In (EvColdStart j) (fst (async_loop resp lat fuel i (send_time lat asyncPollInterval i))) <->
    In (EvPoll j) (fst (async_loop resp lat fuel i (send_time lat asyncPollInterval i))) /\
    (exists jb, resp j = Ok jb /\ rp_status jb = IN_QUEUE) /\
    coldStartMs < send_time lat asyncPollInterval j + Z.of_nat (lat j).
Proof.
  induction fuel as [|f IH]; intros i j.
  - cbn [async_loop]. destruct (_ <? _); simpl; tauto.
  - set (ST := send_time lat asyncPollInterval) in *.
    destruct (Z.lt_ge_cases (ST i) asyncMaxWaitTime) as [Hl|Hl];
      [|rewrite async_loop_late by exact Hl; simpl; tauto].
    pose proof (async_loop_from resp lat (S f) i (ST i)) as From.
    rewrite async_loop_step in From |- * by exact Hl.
    destruct (async_continues (resp i)) eqn:Hc.
    + cbv zeta in From |- *. change (ST i + Z.of_nat (lat i) + asyncPollInterval) with (ST (S i)) in From |- *.
      specialize (IH (S i) j).
      pose proof (async_loop_from resp lat f (S i) (ST (S i))) as From'.
      destruct (async_loop resp lat f (S i) (ST (S i))) as [evs r]. simpl in IH, From, From' |- *.
      destruct (Nat.eq_dec j i) as [->|Hne].
      * split.
        -- intros [H|H]; [discriminate|].
           apply in_app_or in H as [H|H]; [|specialize (From' _ H); simpl in From'; lia].
           split; [left; reflexivity|].
           destruct (resp i) as [jb|m]; [|simpl in H; tauto].
           destruct (is_in_queue (rp_status jb) && (ST i + Z.of_nat (lat i) >? coldStartMs)) eqn:Hq;
             [|simpl in H; tauto].
           apply andb_prop in Hq as [Hq1 Hq2].
           split; [exists jb; split; [reflexivity|destruct (rp_status jb); try discriminate; reflexivity]|].
           apply Z.gtb_lt in Hq2. lia.
        -- intros (_ & (jb & Hr & Hs) & Ht). right. apply in_or_app. left.
           rewrite Hr, Hs. cbn [is_in_queue andb].
           replace (ST i + Z.of_nat (lat i) >? coldStartMs) with true by (symmetry; apply Z.gtb_lt; lia).
           left. reflexivity.
      * assert (Hcold : forall e, In e (match resp i with
                        | Ok j0 => if is_in_queue (rp_status j0) && (ST i + Z.of_nat (lat i) >? coldStartMs)
                                   then [EvColdStart i] else []
                        | Err _ => [] end) -> e = EvColdStart i).
        { intros e. destruct (resp i); [destruct (_ && _)|]; simpl; [intros [H|[]]; auto|tauto|tauto]. }
        split.
        -- intros [H|H]; [discriminate|].
           apply in_app_or in H as [H|H]; [apply Hcold in H; congruence|].
           apply IH in H as (H1 & H2). split; [right; apply in_or_app; right; exact H1|exact H2].
        -- intros (H1 & H2). right. apply in_or_app. right. apply IH. split; [|exact H2].
           destruct H1 as [H1|H1]; [congruence|].
           apply in_app_or in H1 as [H1|H1]; [apply Hcold in H1; congruence|exact H1].
    + simpl. split; [intros [H|[]]; discriminate|].
      intros (H1 & (jb & Hr & Hs) & _). destruct H1 as [H1|[]]. injection H1 as <-.
      rewrite Hr in Hc. simpl in Hc. rewrite Hs in Hc. discriminate.
Qed.

Lemma async_loop_stop_at resp lat fuel :
  forall i el j, In (EvPoll j) (fst (async_loop resp lat fuel i el)) ->
  async_continues (resp j) = false -> snd (async_loop resp lat fuel i el) = async_stop (resp j).
Proof.
  induction fuel as [|f IH]; intros i el j.
  - cbn [async_loop]. destruct (_ <? _); simpl; tauto.
  - destruct (Z.lt_ge_cases el asyncMaxWaitTime) as [Hl|Hl];
      [|rewrite async_loop_late by exact Hl; simpl; tauto].
    pose proof (async_loop_from resp lat (S f) i el) as From.
    rewrite async_loop_step in From |- * by exact Hl.
    destruct (async_continues (resp i)) eqn:Hc.
    + cbv zeta in From |- *.
      specialize (IH (S i) (el + Z.of_nat (lat i) + asyncPollInterval) j).
      destruct (async_loop resp lat f (S i) _) as [evs r]. simpl in IH, From |- *.
      intros [H|H] Hs; [injection H as ->; congruence|].
      apply in_app_or in H as [H|H].
      * destruct (resp i); [destruct (_ && _)|]; simpl in H; [destruct H as [H|[]]; discriminate|tauto|tauto].
      * exact (IH H Hs).
    + simpl. intros [H|[]] _. injection H as ->. reflexivity.
Qed.

Lemma async_loop_all_continue resp lat fuel :
  forall i, (fuel + i = async_fuel)%nat ->
  (forall k, (i <= k)%nat -> send_time lat asyncPollInterval k < asyncMaxWaitTime -> async_continues (resp k) = true) ->
  snd (async_loop resp lat fuel i (send_time lat asyncPollInterval i)) = Err timed_out_message.
Proof.
  induction fuel as [|f IH]; intros i Hf Hall.
  - cbn [async_loop]. destruct (_ <? _); reflexivity.
  - destruct (Z.lt_ge_cases (send_time lat asyncPollInterval i) asyncMaxWaitTime) as [Hl|Hl];
      [|rewrite async_loop_late by exact Hl; reflexivity].
    rewrite async_loop_step by exact Hl. rewrite (Hall i) by (lia || exact Hl).
    cbv zeta. specialize (IH (S i) ltac:(lia) ltac:(intros k Hk; apply Hall; lia)).
    change (send_time lat asyncPollInterval (S i)) with
      (send_time lat asyncPollInterval i + Z.of_nat (lat i) + asyncPollInterval) in IH.
    destruct (async_loop resp lat f (S i) _) as [evs r]. exact IH.
Qed.

Lemma wait_loop_late resp lat mw fuel i el :
  mw <= el -> wait_loop resp lat mw fuel i el = ([], Err timed_out_message).
Proof.
  intros H. destruct fuel; cbn [wait_loop];
    replace (el <? mw) with false by (symmetry; apply Z.ltb_ge; lia);
    reflexivity.
Qed.

Lemma wait_loop_step resp lat mw f i el :
  el < mw ->
  wait_loop resp lat mw (S f) i el =
    if wait_continues (resp i) then
      let '(evs, r) := wait_loop resp lat mw f (S i) (el + Z.of_nat (lat i) + waitPollInterval) in
      (EvPoll i :: evs, r)
    else ([EvPoll i], wait_stop (resp i)).
Proof.
  intros H. cbn [wait_loop].
  replace (el <? mw) with true by (symmetry; apply Z.ltb_lt; exact H).
  unfold wait_continues, wait_stop.
  destruct (resp i) as [j|m]; [destruct (rp_status j)|]; reflexivity.
Qed.

Lemma wait_loop_from resp lat mw fuel :
  forall i el e, In e (fst (wait_loop resp lat mw fuel i el)) -> (i <= ev_index e)%nat.
Proof.
  induction fuel as [|f IH]; intros i el e.
  - cbn [wait_loop]. destruct (el <? mw); simpl; tauto.
  - destruct (Z.lt_ge_cases el mw) as [Hl|Hl];
      [|rewrite wait_loop_late by exact Hl; simpl; tauto].
    rewrite wait_loop_step by exact Hl.
    destruct (wait_continues (resp i)); [|simpl; intros [<-|[]]; simpl; lia].
    pose proof (IH (S i) (el + Z.of_nat (lat i) + waitPollInterval) e) as IHe.
    destruct (wait_loop resp lat mw f (S i) _) as [evs r]. simpl in IHe |- *.
    intros [<-|H]; [simpl; lia|specialize (IHe H); lia].
Qed.

Lemma wait_loop_cold_free resp lat mw fuel :
  forall i el j, ~ In (EvColdStart j) (fst (wait_loop resp lat mw fuel i el)).
Proof.
  induction fuel as [|f IH]; intros i el j.
  - cbn [wait_loop]. destruct (el <? mw); simpl; tauto.
  - destruct (Z.lt_ge_cases el mw) as [Hl|Hl];
      [|rewrite wait_loop_late by exact Hl; simpl; tauto].
    rewrite wait_loop_step by exact Hl.
    destruct (wait_continues (resp i)); [|simpl; intros [H|[]]; discriminate].
    pose proof (IH (S i) (el + Z.of_nat (lat i) + waitPollInterval) j) as IHe.
    destruct (wait_loop resp lat mw f (S i) _) as [evs r]. simpl in IHe |- *.
    intros [H|H]; [discriminate|tauto].
Qed.

Lemma wait_loop_polls resp lat mw fuel :
  forall i, (fuel + i = wait_fuel mw)%nat ->
  forall j, In (EvPoll j) (fst (wait_loop resp lat mw fuel i (send_time lat waitPollInterval i))) <->
    (i <= j)%nat /\ (forall k, (i <= k < j)%nat -> wait_continues (resp k) = true) /\
    send_time lat waitPollInterval j < mw.
Proof.
  induction fuel as [|f IH]; intros i Hf j.
  - cbn [wait_loop].
    split; [destruct (_ <? _); simpl; tauto|].
    intros (Hij & _ & Ht). exfalso.
    pose proof (send_time_lower lat waitPollInterval j ltac:(unfold waitPollInterval; lia)) as L.
    unfold wait_fuel, waitPollInterval in *.
    simpl in Hf; subst i. assert (Hi : Z.of_nat (S (Z.to_nat (mw / 2000))) = 1 + Z.max 0 (mw / 2000)) by lia.
    pose proof (Z.mul_div_le mw 2000 ltac:(lia)).
    pose proof (Z.mod_pos_bound mw 2000 ltac:(lia)).
    pose proof (Z_div_mod_eq_full mw 2000). lia.
  - set (ST := send_time lat waitPollInterval) in *.
    destruct (Z.lt_ge_cases (ST i) mw) as [Hl|Hl].
    + rewrite wait_loop_step by exact Hl.
      destruct (wait_continues (resp i)) eqn:Hc.
      * change (ST i + Z.of_nat (lat i) + waitPollInterval) with (ST (S i)).
        specialize (IH (S i) ltac:(lia) j).
        destruct (wait_loop resp lat mw f (S i) (ST (S i))) as [evs r]. simpl in IH |- *.
        split.
        -- intros [H|H]; [injection H as <-; split; [lia|split; [intros; lia|exact Hl]]|].
           apply IH in H as (H1 & H2 & H3).
           split; [lia|split; [|exact H3]].
           intros k Hk. destruct (Nat.eq_dec k i) as [->|]; [exact Hc|apply H2; lia].
        -- intros (H1 & H2 & H3).
           destruct (Nat.eq_dec i j) as [->|Hne]; [left; reflexivity|right].
           apply IH. split; [lia|split; [intros k Hk; apply H2; lia|exact H3]].
      * simpl. split.
        -- intros [H|[]]. injection H as <-. split; [lia|split; [intros; lia|exact Hl]].
        -- intros (H1 & H2 & H3). left.
           destruct (Nat.eq_dec i j) as [->|Hne]; [reflexivity|].
           rewrite H2 in Hc by lia. discriminate.
    + rewrite wait_loop_late by exact Hl. simpl. split; [tauto|].
      intros (H1 & _ & H3).
      pose proof (send_time_mono lat waitPollInterval i j ltac:(unfold waitPollInterval; lia) H1).
      fold ST in H. lia.
Qed.

Lemma wait_loop_stop_at resp lat mw fuel :
  forall i el j, In (EvPoll j) (fst (wait_loop resp lat mw fuel i el)) ->
  wait_continues (resp j) = false -> snd (wait_loop resp lat mw fuel i el) = wait_stop (resp j).
Proof.
  induction fuel as [|f IH]; intros i el j.
  - cbn [wait_loop]. destruct (_ <? _); simpl; tauto.
  - destruct (Z.lt_ge_cases el mw) as [Hl|Hl];
      [|rewrite wait_loop_late by exact Hl; simpl; tauto].
    rewrite wait_loop_step by exact Hl.
    destruct (wait_continues (resp i)) eqn:Hc.
    + specialize (IH (S i) (el + Z.of_nat (lat i) + waitPollInterval) j).
      destruct (wait_loop resp lat mw f (S i) _) as [evs r]. simpl in IH |- *.
      intros [H|H] Hs; [injection H as ->; congruence|exact (IH H Hs)].
    + simpl. intros [H|[]] _. injection H as ->. reflexivity.
Qed.

Lemma wait_loop_all_continue resp lat mw fuel :
  forall i, (fuel + i = wait_fuel mw)%nat ->
  (forall k, (i <= k)%nat -> send_time lat waitPollInterval k < mw -> wait_continues (resp k) = true) ->
  snd (wait_loop resp lat mw fuel i (send_time lat waitPollInterval i)) = Err timed_out_message.
Proof.
  induction fuel as [|f IH]; intros i Hf Hall.
  - cbn [wait_loop]. destruct (_ <? _); reflexivity.
  - destruct (Z.lt_ge_cases (send_time lat waitPollInterval i) mw) as [Hl|Hl];
      [|rewrite wait_loop_late by exact Hl; reflexivity].
    rewrite wait_loop_step by exact Hl. rewrite (Hall i) by (lia || exact Hl).
    specialize (IH (S i) ltac:(lia) ltac:(intros k Hk; apply Hall; lia)).
    change (send_time lat waitPollInterval (S i)) with
      (send_time lat waitPollInterval i + Z.of_nat (lat i) + waitPollInterval) in IH.
    destruct (wait_loop resp lat mw f (S i) _) as [evs r]. exact IH.
Qed.

(** X12: [executeAsync] sends status query [j] exactly when all earlier answers
    asked for another poll and [j] is due before the 10-minute limit; it
    therefore sends fewer than 120 queries. *)
Theorem executeAsync_poll_schedule resp lat w id j :
  (In (EvPoll j) (fst (executeAsync resp lat (Ok w) (Ok id))) <->
     (forall k, (k < j)%nat -> async_continues (resp k) = true) /\
     send_time lat asyncPollInterval j < asyncMaxWaitTime) /\
  (In (EvPoll j) (fst (executeAsync resp lat (Ok w) (Ok id))) -> (j < 120)%nat).
Proof.
  assert (E : fst (executeAsync resp lat (Ok w) (Ok id)) = fst (async_loop resp lat async_fuel 0 (send_time lat asyncPollInterval 0))).
  { unfold executeAsync. simpl send_time. destruct (async_loop resp lat async_fuel 0 0); reflexivity. }
  rewrite E.
  assert (Iff : In (EvPoll j) (fst (async_loop resp lat async_fuel 0 (send_time lat asyncPollInterval 0))) <->
     (forall k, (k < j)%nat -> async_continues (resp k) = true) /\
     send_time lat asyncPollInterval j < asyncMaxWaitTime).
  { rewrite (async_loop_polls resp lat async_fuel 0 ltac:(lia) j).
    split; [intros (_ & H2 & H3); split; [intros k Hk; apply H2; lia|exact H3]|].
    intros (H2 & H3). split; [lia|split; [intros k Hk; apply H2; lia|exact H3]]. }
  split; [exact Iff|].
  intros H. apply Iff in H as [_ H].
  pose proof (send_time_lower lat asyncPollInterval j ltac:(unfold asyncPollInterval; lia)).
  unfold asyncPollInterval, asyncMaxWaitTime in *. lia.
Qed.

(** X13: [executeAsync] signals a cold start at query [j] exactly when the
    query is sent, answers [IN_QUEUE], and more than 15 seconds have
    passed when it returns; never for [IN_PROGRESS]. *)
Theorem executeAsync_cold_start_signal resp lat w id j :
  In (EvColdStart j) (fst (executeAsync resp lat (Ok w) (Ok id))) <->
  In (EvPoll j) (fst (executeAsync resp lat (Ok w) (Ok id))) /\
  (exists jb, resp j = Ok jb /\ rp_status jb = IN_QUEUE) /\
  coldStartMs < send_time lat asyncPollInterval j + Z.of_nat (lat j).
Proof.
  assert (E : fst (executeAsync resp lat (Ok w) (Ok id)) = fst (async_loop resp lat async_fuel 0 (send_time lat asyncPollInterval 0))).
  { unfold executeAsync. simpl send_time. destruct (async_loop resp lat async_fuel 0 0); reflexivity. }
  rewrite E. apply async_loop_cold.
Qed.

(** X14: When a sent query of [executeAsync] gets an answer that stops the
    loop (COMPLETED, FAILED, or a failed request), the outcome is the one
    of that answer: a failed status request is not retried. *)
Theorem executeAsync_stops_at resp lat w id j :
  In (EvPoll j) (fst (executeAsync resp lat (Ok w) (Ok id))) ->
  async_continues (resp j) = false ->
  snd (executeAsync resp lat (Ok w) (Ok id)) = wrap_execution (async_stop (resp j)).
Proof.
  intros Hin Hs. unfold executeAsync in *.
  pose proof (async_loop_stop_at resp lat async_fuel 0 0 j) as H.
  destruct (async_loop resp lat async_fuel 0 0) as [evs r]. simpl in *.
  rewrite (H Hin Hs). reflexivity.
Qed.

Lemma executeAsync_stops_at_witness :
  snd (executeAsync (responses [IN_QUEUE; CANCELLED; FAILED]) (fun _ => 1000%nat) (Ok JNull) (Ok "rp-1"))
  = Err (execution_error ("Job failed: " ++ error_text None)).
Proof.
  apply (executeAsync_stops_at (responses [IN_QUEUE; CANCELLED; FAILED]) (fun _ => 1000%nat) JNull "rp-1" 2);
    vm_compute; [auto 10|reflexivity].
Defined.

(** X15: When every answer due before the limit asks for another poll (also
    CANCELLED and TIMED_OUT), [executeAsync] fails with the timeout message. *)
Theorem executeAsync_times_out resp lat w id :
  (forall k, send_time lat asyncPollInterval k < asyncMaxWaitTime -> async_continues (resp k) = true) ->
  snd (executeAsync resp lat (Ok w) (Ok id)) = Err (execution_error timed_out_message).
Proof.
  intros Hall. unfold executeAsync.
  pose proof (async_loop_all_continue resp lat async_fuel 0 ltac:(lia) ltac:(intros k _; apply Hall)) as H.
  simpl send_time in H.
  destruct (async_loop resp lat async_fuel 0 0) as [evs r]. simpl in *. rewrite H. reflexivity.
Qed.

Lemma executeAsync_times_out_witness :
  snd (executeAsync (fun _ => Ok (job CANCELLED None)) (fun _ => 300%nat) (Ok JNull) (Ok "rp-1"))
  = Err (execution_error timed_out_message).
Proof.
  apply executeAsync_times_out. intros k _. reflexivity.
Defined.

(** X16: [waitForCompletion] sends query [j] exactly when all earlier answers
    were IN_QUEUE or IN_PROGRESS and [j] is due before [maxWaitTime]. *)
Theorem waitForCompletion_poll_schedule resp lat mw j :
  In (EvPoll j) (fst (waitForCompletion resp lat mw)) <->
  (forall k, (k < j)%nat -> wait_continues (resp k) = true) /\
  send_time lat waitPollInterval j < mw.
Proof.
  unfold waitForCompletion.
  change 0 with (send_time lat waitPollInterval 0).
  rewrite (wait_loop_polls resp lat mw (wait_fuel mw) 0 ltac:(lia) j).
  split; [intros (_ & H2 & H3); split; [intros k Hk; apply H2; lia|exact H3]|].
  intros (H2 & H3). split; [lia|split; [intros k Hk; apply H2; lia|exact H3]].
Qed.

(** X17: When a sent query of [waitForCompletion] gets any other answer, the
    outcome is the one of that answer. *)
Theorem waitForCompletion_stops_at resp lat mw j :
  In (EvPoll j) (fst (waitForCompletion resp lat mw)) ->
  wait_continues (resp j) = false ->
  snd (waitForCompletion resp lat mw) = wait_stop (resp j).
Proof. apply wait_loop_stop_at. Qed.

Lemma waitForCompletion_stops_at_witness :
  snd (waitForCompletion (responses [IN_PROGRESS; CANCELLED]) (fun _ => 100%nat) 300000)
  = Err ("Job cancelled: " ++ error_text None).
Proof.
  apply (waitForCompletion_stops_at (responses [IN_PROGRESS; CANCELLED]) (fun _ => 100%nat) 300000 1);
    vm_compute; [auto|reflexivity].
Defined.

(** X18: When every answer due before [maxWaitTime] is IN_QUEUE or
    IN_PROGRESS, [waitForCompletion] fails with the timeout message. *)
Theorem waitForCompletion_times_out resp lat mw :
  (forall k, send_time lat waitPollInterval k < mw -> wait_continues (resp k) = true) ->
  snd (waitForCompletion resp lat mw) = Err timed_out_message.
Proof.
  intros Hall. unfold waitForCompletion.
  change 0 with (send_time lat waitPollInterval 0).
  apply wait_loop_all_continue; [lia|intros k _; apply Hall].
Qed.

Lemma waitForCompletion_times_out_witness :
  snd (waitForCompletion (fun _ => Ok (job IN_PROGRESS None)) (fun _ => 50%nat) 10000) = Err timed_out_message.
Proof.
  apply waitForCompletion_times_out. intros k _. reflexivity.
Defined.

(** X19: Two sweeps of the job store amount to one sweep at the later time. *)
Theorem sweep_compose t1 t2 s :
  sweep t2 (sweep t1 s) = sweep (Z.max t1 t2) s.
Proof.
  apply map_eq. intros id.
  destruct (sweep (Z.max t1 t2) s !! id) as [r|] eqn:E.
  - apply sweep_lookup in E as [E1 E2]. apply sweep_lookup. split; [|lia].
    apply sweep_lookup. split; [exact E1|lia].
  - destruct (sweep t2 (sweep t1 s) !! id) as [r|] eqn:F; [|reflexivity].
    apply sweep_lookup in F as [F1 F2]. apply sweep_lookup in F1 as [F1 F3].
    assert (G : sweep (Z.max t1 t2) s !! id = Some r) by (apply sweep_lookup; split; [exact F1|lia]).
    congruence.
Qed.

Lemma record_ok_plain st t : st = pending \/ st = processing -> record_ok (plain_record st t).
Proof.
  intros Hst. unfold record_ok, plain_record. simpl.
  split; split; intros H;
    first [reflexivity | discriminate | (exfalso; apply H; reflexivity) | (destruct Hst; congruence)].
Qed.

Lemma record_ok_step tu s :
  (forall id r, s !! id = Some r -> record_ok r) ->
  forall id r, step tu s !! id = Some r -> record_ok r.
Proof.
  intros Hs id r. destruct tu as [id' p t|id' o t|t|id']; simpl.
  - unfold generate_sync. destruct (String.eqb p ""); [apply Hs|].
    rewrite lookup_insert_Some. intros [[_ <-]|[_ H]]; [apply record_ok_plain; auto|].
    revert H. rewrite lookup_insert_Some. intros [[_ <-]|[_ H]]; [apply record_ok_plain; auto|].
    exact (Hs _ _ H).
  - unfold finish. destruct o as [g|m]; rewrite lookup_insert_Some;
      intros [[_ <-]|[_ H]]; try exact (Hs _ _ H).
    + unfold record_ok, completed_record. simpl. split; split; intros H;
        first [reflexivity | discriminate | discriminate H | (exfalso; apply H; reflexivity)].
    + unfold record_ok, failed_record. simpl. split; split; intros H;
        first [reflexivity | discriminate | discriminate H | (exfalso; apply H; reflexivity)].
  - intros H. apply sweep_lookup in H as [H _]. exact (Hs _ _ H).
  - apply Hs.
Qed.

Lemma record_ok_run ts :
  forall s, (forall id r, s !! id = Some r -> record_ok r) ->
  forall id r, run ts s !! id = Some r -> record_ok r.
Proof.
  induction ts as [|tu ts IH]; intros s Hs; [exact Hs|].
  simpl. apply IH. apply record_ok_step, Hs.
Qed.

(** X20: For a job of the store, [GET /api/status/:jobId] answers without
    asking RunPod, with a [result] field exactly when the job is completed
    and an [error] field exactly when it failed. *)
Theorem status_reply_consistent ts remote id jr :
  run ts ∅ !! id = Some jr ->
  exists res err,
    status_handler (run ts ∅) remote id =
      (None, (200, JObj ([("success", JBool true); ("jobId", JStr id);
                          ("status", JStr (local_status_string (jr_status jr)))]
                         ++ opt_fields "result" res ++ opt_fields "error" err)%list)) /\
    (res <> None <-> jr_status jr = completed) /\ (err <> None <-> jr_status jr = failed).
Proof.
  intros H. pose proof (record_ok_run ts ∅ ltac:(intros i r Hr; rewrite lookup_empty in Hr; discriminate) id jr H) as [R E].
  exists (jr_result jr), (JStr <$> jr_error jr). unfold status_handler. rewrite H. split; [reflexivity|].
  split; [exact R|]. rewrite <- E. destruct (jr_error jr); simpl; split; intros; congruence.
Qed.

Lemma status_reply_consistent_witness :
  exists res err,
    status_handler (run [TGenerate "job_1" "a cat" 0; TFinish "job_1" (Err "boom") 5000] ∅)
      (fun _ => Err "unused") "job_1" =
      (None, (200, JObj ([("success", JBool true); ("jobId", JStr "job_1");
                          ("status", JStr (local_status_string failed))]
                         ++ opt_fields "result" res ++ opt_fields "error" err)%list)) /\
    (res <> None <-> failed = completed) /\ (err <> None <-> failed = failed).
Proof.
  apply (status_reply_consistent [TGenerate "job_1" "a cat" 0; TFinish "job_1" (Err "boom") 5000]
           (fun _ => Err "unused") "job_1" (failed_record "boom" 5000)).
  reflexivity.
Defined.

(** X21: Once a sweep has dropped a job, [GET /api/status/:jobId] no longer
    answers from the store but forwards the local id to RunPod and answers
    with what RunPod says: on success 200 with RunPod's job id, status,
    output and error; when the query fails 500 with the axios message in
    [details]. Before the sweep it answered from the store. *)
Theorem status_after_sweep s now remote id jr :
  s !! id = Some jr -> startedAt jr < now - retentionMs ->
  status_handler s remote id =
    (None, (200, JObj ([("success", JBool true); ("jobId", JStr id);
                        ("status", JStr (local_status_string (jr_status jr)))]
                       ++ opt_fields "result" (jr_result jr)
                       ++ opt_fields "error" (JStr <$> jr_error jr))%list)) /\
  status_handler (sweep now s) remote id =
    (Some id,
      match remote id with
      | Ok j =>
          (200, JObj ([("success", JBool true); ("jobId", JStr (rp_id j));
                       ("status", JStr (status_string (rp_status j)))]
                      ++ opt_fields "output" (rp_output j)
                      ++ opt_fields "error" (JStr <$> rp_error j))%list)
      | Err m =>
          (500, JObj [("error", JStr "Failed to get job status");
                      ("details", JStr ("Failed to get job status: " ++ m))])
      end).
Proof.
  intros Hs Ht. unfold status_handler. rewrite Hs. split; [reflexivity|].
  replace (sweep now s !! id) with (@None JobRecord); [reflexivity|].
  symmetry. apply eq_None_not_Some. intros [r Hr'].
  apply sweep_lookup in Hr' as [H1 H2]. rewrite Hs in H1. injection H1 as <-. lia.
Qed.

Lemma status_after_sweep_witness :
  let s := run [TGenerate "job_1" "a cat" 0; TFinish "job_1" (Err "boom") 5000] ∅ in
  status_handler (sweep 4000000 s) (fun _ => Err "Request failed with status code 404") "job_1" =
    (Some "job_1", (500, JObj [("error", JStr "Failed to get job status");
                          ("details", JStr ("Failed to get job status: " ++ "Request failed with status code 404"))])) /\
  status_handler (sweep 4000000 s) (fun _ => Ok (job COMPLETED None)) "job_1" =
    (Some "job_1", (200, JObj ([("success", JBool true); ("jobId", JStr (rp_id (job COMPLETED None)));
                                ("status", JStr (status_string COMPLETED))]
                               ++ opt_fields "output" (rp_output (job COMPLETED None))
                               ++ opt_fields "error" (JStr <$> rp_error (job COMPLETED None)))%list)).
Proof.
  intros s. split.
  - exact (proj2 (status_after_sweep s 4000000 (fun _ => Err "Request failed with status code 404")
                    "job_1" (failed_record "boom" 5000) eq_refl ltac:(unfold retentionMs; simpl; lia))).
  - exact (proj2 (status_after_sweep s 4000000 (fun _ => Ok (job COMPLETED None))
                    "job_1" (failed_record "boom" 5000) eq_refl ltac:(unfold retentionMs; simpl; lia))).
Defined.




(** X23: [generateWithGeminiImagen] fails with "No candidates returned from
    Gemini" when the response's [candidates] is falsy or an empty array, and
    with "Model returned text instead of image..." when the first
    candidate's [parts] has no part with a truthy [inlineData]; each message
    is prefixed with the model name. *)
Theorem gemini_no_image_errors model :
  (forall data v, get_prop data "candidates" = Ok v -> truthy_opt v = false ->
     generateWithGeminiImagen model (Ok data) = Err (gemini_error model no_candidates_message)) /\
  (forall data, get_prop data "candidates" = Ok (Some (JArr [])) ->
     generateWithGeminiImagen model (Ok data) = Err (gemini_error model no_candidates_message)) /\
  (forall data c cs ct parts,
     get_prop data "candidates" = Ok (Some (JArr (c :: cs))) ->
     get_prop c "content" = Ok (Some ct) ->
     get_prop ct "parts" = Ok (Some (JArr parts)) ->
     (forall q, In q parts -> exists v, get_prop q "inlineData" = Ok v /\ truthy_opt v = false) ->
     generateWithGeminiImagen model (Ok data) = Err (gemini_error model text_instead_message)).
Proof.
  split; [|split].
  - intros data v Hc Hv. unfold generateWithGeminiImagen, gemini_image. cbn [rbind].
    rewrite Hc. cbn [rbind]. rewrite Hv. reflexivity.
  - intros data Hc. unfold generateWithGeminiImagen, gemini_image. cbn [rbind].
    rewrite Hc. reflexivity.
  - intros data c cs ct parts Hc Hct Hp Hq.
    unfold generateWithGeminiImagen, gemini_image. cbn [rbind]. rewrite Hc. cbn -[find_inline].
    rewrite Hct. cbn [rbind read]. rewrite Hp. cbn [rbind parts_find].
    replace (find_inline parts) with (@Ok (option json) None); [reflexivity|].
    clear Hp. induction parts as [|q parts IH]; [reflexivity|].
    destruct (Hq q (or_introl eq_refl)) as (v & Hv & Hf). simpl. rewrite Hv. simpl. rewrite Hf.
    apply IH. intros q' Hq'. apply Hq. right. exact Hq'.
Qed.

Lemma gemini_no_image_errors_witness :
  generateWithGeminiImagen "nana-pro"
    (Ok (JObj [("promptFeedback", JObj [("blockReason", JStr "SAFETY")])])) =
  Err (gemini_error "nana-pro" no_candidates_message) /\
  generateWithGeminiImagen "nana-pro"
    (Ok (JObj [("candidates", JArr [JObj [("content", JObj [("parts", JArr [JObj [("text", JStr "I cannot draw that.")]])])]])])) =
  Err (gemini_error "nana-pro" text_instead_message).
Proof.
  split.
  - apply (proj1 (gemini_no_image_errors "nana-pro") _ None); reflexivity.
  - eapply (proj2 (proj2 (gemini_no_image_errors "nana-pro")) _ _ [] _ [JObj [("text", JStr "I cannot draw that.")]]);
      try reflexivity.
    intros q [<-|[]]. exists None. split; reflexivity.
Defined.
